(** * sshClient.ShellHandler: the interactive remote command-execution protocol

    A shallow embedding of [src/sshClient.py].  Python strings are lists of
    characters ([ascii], code points below 256); the channel's output source
    is the list of results that successive reads deliver; the input sink is
    the log of what was written to it.  Exceptions are named by their class. *)

From Stdlib Require Import String Ascii List ZArith NArith Lia Bool Arith.
From Stdlib Require Hexadecimal HexadecimalString HexadecimalN HexadecimalPos.
Import ListNotations.
Open Scope bool_scope.

(** ** Python strings *)

Module PyStr.

Definition str := list ascii.

(** A string literal of the source. *)
Definition lit (s : string) : str := list_ascii_of_string s.

Definition code (c : ascii) : nat := nat_of_ascii c.
Definition in_range (lo hi : nat) (c : ascii) : bool :=
  (lo <=? code c) && (code c <=? hi).

Definition LF : ascii := ascii_of_nat 10.
Definition BS : ascii := ascii_of_nat 8.
Definition CR : ascii := ascii_of_nat 13.
Definition ESC : ascii := ascii_of_nat 27.
Definition CSI : ascii := ascii_of_nat 155.

(** [s.startswith(prefix)] *)
Fixpoint startswith (s prefix : str) : bool :=
  match prefix, s with
  | [], _ => true
  | _ :: _, [] => false
  | p :: prefix', c :: s' => Ascii.eqb c p && startswith s' prefix'
  end.

(** [sub in s] *)
Fixpoint contains (s sub : str) : bool :=
  startswith s sub ||
  match s with
  | [] => false
  | _ :: s' => contains s' sub
  end.

Fixpoint dropwhile (f : ascii -> bool) (s : str) : str :=
  match s with
  | [] => []
  | c :: s' => if f c then dropwhile f s' else s
  end.

Fixpoint takewhile (f : ascii -> bool) (s : str) : str :=
  match s with
  | [] => []
  | c :: s' => if f c then c :: takewhile f s' else []
  end.

Definition lstrip (f : ascii -> bool) (s : str) : str := dropwhile f s.
Definition rstrip (f : ascii -> bool) (s : str) : str := rev (dropwhile f (rev s)).

(** [s.strip(chars)]: both ends. *)
Definition strip (f : ascii -> bool) (s : str) : str := rstrip f (lstrip f s).

(** [s.replace(c, '')] for a one-character [c]. *)
Definition remove_char (c : ascii) (s : str) : str :=
  filter (fun x => negb (Ascii.eqb x c)) s.

(** The characters [str.split()] treats as blank, below 256:
    TAB LF VT FF CR, FS GS RS US, space, NEL and NBSP. *)
Definition isspace (c : ascii) : bool :=
  in_range 9 13 c || in_range 28 32 c || (code c =? 133) || (code c =? 160).

(** [s.rsplit(maxsplit=1)]: scanning from the right, blanks are skipped, the
    last run of non-blanks is the final field, blanks before it are skipped,
    and what remains on the left (if anything) is the first field. *)
Definition rsplit1 (s : str) : list str :=
  let r1 := dropwhile isspace (rev s) in
  match r1 with
  | [] => []
  | _ :: _ =>
      let tok := takewhile (fun c => negb (isspace c)) r1 in
      let r2 := dropwhile isspace (dropwhile (fun c => negb (isspace c)) r1) in
      match r2 with
      | [] => [rev tok]
      | _ :: _ => [rev r2; rev tok]
      end
  end.

(** [int(s)]: blanks around the literal are skipped, then an optional sign,
    then decimal digits in which single underscores may separate digits.
    [None] stands for ValueError.  (The interpreter's configurable cap on the
    number of digits is left out; beyond it int() raises ValueError too.
    A field of [rsplit1] holds no blank, so on it the first step removes
    nothing.) *)
Definition int_blank (c : ascii) : bool :=
  in_range 9 13 c || (code c =? 32) || (code c =? 133) || (code c =? 160).

Definition isdigit (c : ascii) : bool := in_range 48 57 c.

Fixpoint digits (acc : Z) (after_digit : bool) (s : str) : option Z :=
  match s with
  | [] => if after_digit then Some acc else None
  | c :: s' =>
      if isdigit c then digits (10 * acc + Z.of_nat (code c - 48)) true s'
      else if Ascii.eqb c "_"%char
           then (if after_digit then digits acc false s' else None)
           else None
  end.

Definition py_int (s : str) : option Z :=
  match strip int_blank s with
  | [] => None
  | c :: s' =>
      if Ascii.eqb c "-"%char then option_map Z.opp (digits 0 false s')
      else if Ascii.eqb c "+"%char then digits 0 false s'
      else digits 0 false (c :: s')
  end.

(** *** The pattern [(\x9B|\x1B\[)[0-?]*[ -/]*[@-~]]

    The three character classes are pairwise disjoint, so the greedy match
    at a position is decided without backtracking: the longest run of
    parameter characters, then the longest run of intermediate characters,
    then one final character, which must be there. *)
Definition is_param (c : ascii) : bool := in_range 48 63 c.
Definition is_inter (c : ascii) : bool := in_range 32 47 c.
Definition is_final (c : ascii) : bool := in_range 64 126 c.

Fixpoint inter_final (s : str) : option nat :=
  match s with
  | [] => None
  | c :: s' =>
      if is_inter c then option_map S (inter_final s')
      else if is_final c then Some 1 else None
  end.

Fixpoint param_rest (s : str) : option nat :=
  match s with
  | [] => None
  | c :: s' =>
      if is_param c then option_map S (param_rest s') else inter_final s
  end.

(** Length of the match that starts at the head of [s], if there is one. *)
Definition match_len (s : str) : option nat :=
  match s with
  | c :: s' =>
      if Ascii.eqb c CSI then option_map S (param_rest s')
      else if Ascii.eqb c ESC then
        match s' with
        | d :: s'' =>
            if Ascii.eqb d "["%char then option_map (fun n => S (S n)) (param_rest s'')
            else None
        | [] => None
        end
      else None
  | [] => None
  end.

(** [pattern.sub('', s)]: leftmost matches, not overlapping, are removed in
    one pass.  [skip] counts the characters of the current match that are
    still to be dropped. *)
Fixpoint sub_ansi (skip : nat) (s : str) : str :=
  match s with
  | [] => []
  | c :: s' =>
      match skip with
      | S k => sub_ansi k s'
      | O =>
          match match_len s with
          | Some (S k) => sub_ansi k s'
          | _ => c :: sub_ansi 0 s'
          end
      end
  end.

(** Does the pattern match somewhere in [s]? *)
Fixpoint has_ansi (s : str) : bool :=
  match s with
  | [] => false
  | _ :: s' =>
      match match_len s with
      | Some _ => true
      | None => has_ansi s'
      end
  end.

End PyStr.
Import PyStr.

(** ** The session and its channel *)

Inductive exn := Exn (cls : string).

Definition ValueError := Exn "ValueError".
Definition IndexError := Exn "IndexError".
Definition AttributeError := Exn "AttributeError".

Inductive result (A : Type) :=
| Ok (a : A)
| Raise (e : exn).
Arguments Ok {A} a.
Arguments Raise {A} e.

(** What one read of the output source delivers.  A source that has nothing
    left is at end of file: iteration over it stops. *)
Inductive read :=
| Line (line : str)
| Fails (e : exn).

(** The input sink: everything written to it, oldest first. *)
Record sink := { written : list str; flushes : nat }.

Implicit Types sk : sink.

(** What a write and a flush that go through do to the sink. *)
Definition wrote (sk : sink) (data : str) : sink :=
  {| written := written sk ++ [data]; flushes := flushes sk |}.
Definition flushed (sk : sink) : sink :=
  {| written := written sk; flushes := S (flushes sk) |}.

(** The file object over the sink.  On a working file every write and
    flush goes through.  On a failing file the next [good] operations go
    through and every one after them raises [e]: the channel has closed. *)
Inductive wfile :=
| Working (sk : sink)
| Failing (sk : sink) (good : nat) (e : exn).

(** A sink named where a file is expected is a working file over it. *)
Coercion Working : sink >-> wfile.
#[local] Arguments Some {A} & a.

(** One operation on the file: the exception it raises, if any, and the
    file afterwards. *)
Definition operate (f : wfile) (effect : sink -> sink) : option exn * wfile :=
  match f with
  | Working sk => (None, Working (effect sk))
  | Failing sk (S good) e => (None, Failing (effect sk) good e)
  | Failing sk O e => (Some e, f)
  end.

(** [f.write(data)] *)
Definition write (f : wfile) (data : str) : option exn * wfile :=
  operate f (fun sk => wrote sk data).

(** [f.flush()] *)
Definition flush (f : wfile) : option exn * wfile :=
  operate f flushed.

(** The attributes of a ShellHandler object; [None] is an attribute that
    was never assigned. *)
Record ShellHandler := {
  isConnected : bool;
  stdin : option wfile;
  stdout : option (list read)
}.

(** What the remote side does during construction. *)
Record remote := {
  connect_ok : bool;
  auth_none_ok : bool;
  invoke_shell : result (list read)
}.

(** [ShellHandler.__init__]: the object as the constructor leaves it, and the
    exception that leaves the constructor, if one does.  [invoke_shell]
    stands for lines 25-27 together. *)
Definition init (env : remote) : ShellHandler * option exn :=
  if connect_ok env || auth_none_ok env then
    (* line 15 or line 20 has set the flag; line 25 comes next *)
    match invoke_shell env with
    | Raise e => ({| isConnected := true; stdin := None; stdout := None |}, Some e)
    | Ok channel =>
        ({| isConnected := true;
            stdin := Some {| written := []; flushes := 0 |};
            stdout := Some channel |}, None)
    end
  else
    (* lines 22-23 *)
    ({| isConnected := false; stdin := None; stdout := None |}, None).

(** ** execute *)

Definition finish : str := lit "end of stdOUT buffer. finished with exit status".

(** ['echo {} $?'.format(finish)] *)
Definition echo_cmd : str := lit "echo " ++ finish ++ lit " $?".

Definition is_newline (c : ascii) : bool := Ascii.eqb c LF.

(** [cmd.strip('\n')] *)
Definition normalize (cmd : str) : str := strip is_newline cmd.

(** Lines 68-69: the pattern substituted away, then backspaces and carriage
    returns removed. *)
Definition clean_line (line : str) : str :=
  remove_char CR (remove_char BS (sub_ansi 0 line)).

(** First branch of the loop (line 55). *)
Definition is_echo (cmd line : str) : bool :=
  startswith line cmd || startswith line echo_cmd.

(** The locals of [execute] when the loop is left. *)
Record locals := {
  shout : list str;
  sherr : list str;
  exit_status : Z;
  broke : bool
}.

Inductive step_result :=
| Continue (shout : list str)
| Break (l : locals)
| Throw (e : exn).

(** One iteration of the loop body (lines 55-70) on the line just read. *)
Definition loop_body (cmd : str) (shout : list str) (line : str) : step_result :=
  if is_echo cmd line then Continue []
  else if startswith line finish then
    match nth_error (rsplit1 line) 1 with
    | None => Throw IndexError
    | Some tok =>
        match py_int tok with
        | None => Throw ValueError
        | Some status =>
            if (status =? 0)%Z
            then Break {| shout := shout; sherr := []; exit_status := status; broke := true |}
            else Break {| shout := []; sherr := shout; exit_status := status; broke := true |}
        end
    end
  else Continue (shout ++ [clean_line line]).

(** [for line in self.stdout: ...] over a source that delivers [src]; the
    second component is what is left unread. *)
Fixpoint read_loop (cmd : str) (src : list read) (shout : list str)
  : result locals * list read :=
  match src with
  | [] => (Ok {| shout := shout; sherr := []; exit_status := 0; broke := false |}, [])
  | Fails e :: rest => (Raise e, rest)
  | Line line :: rest =>
      match loop_body cmd shout line with
      | Continue shout' => read_loop cmd rest shout'
      | Break l => (Ok l, rest)
      | Throw e => (Raise e, rest)
      end
  end.

(** The same loop over a source that may never end: [src i] is its i-th
    line.  [None] means the loop is still running when the fuel is spent. *)
Fixpoint read_loop_unbounded (cmd : str) (src : nat -> str) (fuel i : nat)
    (shout : list str) : option (result locals) :=
  match fuel with
  | O => None
  | S fuel' =>
      match loop_body cmd shout (src i) with
      | Continue shout' => read_loop_unbounded cmd src fuel' (S i) shout'
      | Break l => Some (Ok l)
      | Throw e => Some (Raise e)
      end
  end.

(** [if buf and pat in buf[-1]: buf.pop()] *)
Definition pop_last_if (pat : str) (buf : list str) : list str :=
  match buf with
  | [] => buf
  | _ :: _ => if contains (last buf []) pat then removelast buf else buf
  end.

(** [if buf and pat in buf[0]: buf.pop(0)] *)
Definition pop_first_if (pat : str) (buf : list str) : list str :=
  match buf with
  | [] => buf
  | first :: rest => if contains first pat then rest else buf
  end.

(** Lines 73-76 for one buffer (and 77-80 for the other). *)
Definition trim (cmd : str) (buf : list str) : list str :=
  pop_first_if cmd (pop_last_if echo_cmd buf).

(** The values [execute] puts in the tuple it returns.  [PFile] carries the
    state of the file at the time of the return. *)
Inductive pyval :=
| PFile (f : wfile)
| PList (lines : list str).

(** The object with its input file in the state [f]. *)
Definition with_stdin (self : ShellHandler) (f : wfile) : ShellHandler :=
  {| isConnected := isConnected self; stdin := Some f; stdout := stdout self |}.

(** Lines 50-82 of [execute]: the read loop, the trims and the return, once
    the commands are in the file [shin]; [cmd] is the normalised command. *)
Definition receive (self : ShellHandler) (cmd : str) (shin : wfile)
  : result (list pyval) * ShellHandler :=
  match stdout self with
  | None =>
      (Raise AttributeError,
       {| isConnected := isConnected self; stdin := Some shin; stdout := None |})
  | Some src =>
      let (r, rest) := read_loop cmd src [] in
      let self' :=
        {| isConnected := isConnected self; stdin := Some shin; stdout := Some rest |} in
      match r with
      | Raise e => (Raise e, self')
      | Ok l =>
          (Ok [PFile shin; PList (trim cmd (shout l)); PList (trim cmd (sherr l))],
           self')
      end
  end.

(** [ShellHandler.execute]: the returned tuple or the exception raised, and
    the object afterwards.  Each of the two writes and the flush of lines
    43-48 can raise; what was written before stays written. *)
Definition execute (self : ShellHandler) (cmd : str)
  : result (list pyval) * ShellHandler :=
  let cmd := normalize cmd in
  match stdin self with
  | None => (Raise AttributeError, self)
  | Some f =>
      match write f (cmd ++ [LF]) with
      | (Some e, f) => (Raise e, with_stdin self f)
      | (None, f) =>
          match write f (echo_cmd ++ [LF]) with
          | (Some e, f) => (Raise e, with_stdin self f)
          | (None, f) =>
              match flush f with
              | (Some e, f) => (Raise e, with_stdin self f)
              | (None, shin) => receive self cmd shin
              end
          end
      end
  end.

(** The buffer the loop has accumulated after the lines [pre], none of which
    ended the loop. *)
Fixpoint accumulate (cmd : str) (pre : list str) (shout : list str) : list str :=
  match pre with
  | [] => shout
  | line :: pre' =>
      if is_echo cmd line then accumulate cmd pre' []
      else accumulate cmd pre' (shout ++ [clean_line line])
  end.

(** A line that takes the second branch of the loop (line 58). *)
Definition is_sentinel (cmd line : str) : bool :=
  negb (is_echo cmd line) && startswith line finish.

(** The sink after the two writes and the flush of lines 43-48, when all
    three go through. *)
Definition after_writes (sk : sink) (cmd : str) : sink :=
  flushed (wrote (wrote sk (normalize cmd ++ [LF])) (echo_cmd ++ [LF])).

(** The source delivers the lines [pre], none of which ends the loop, then
    [line], which takes the sentinel branch, and [rest] stays unread. *)
Definition reaches_sentinel (cmd : str) (src : list read) (pre : list str)
    (line : str) (rest : list read) : Prop :=
  src = map Line pre ++ Line line :: rest /\
  Forall (fun l => is_sentinel cmd l = false) pre /\
  is_sentinel cmd line = true.

(** [out] is [buf] less at most its last line and then at most its first:
    the last goes exactly when it contains the sentinel-echo command text,
    the first of what is left exactly when it contains the command text. *)
Inductive trims (cmd : str) (buf out : list str) : Prop :=
| Trims (front back : list str) :
    buf = front ++ out ++ back ->
    (back = [] /\ (forall b x, buf = b ++ [x] -> contains x echo_cmd = false) \/
     exists x, back = [x] /\ contains x echo_cmd = true) ->
    (front = [] /\ (forall y t, out = y :: t -> contains y cmd = false) \/
     exists y, front = [y] /\ contains y cmd = true) ->
    trims cmd buf out.

Definition sentinel_line (status : string) : str :=
  finish ++ lit " " ++ lit status ++ [LF].

(** A session whose constructor went through, reading from [src]. *)
Definition session (src : list read) : ShellHandler :=
  {| isConnected := true;
     stdin := Some {| written := []; flushes := 0 |};
     stdout := Some src |}.

(** The complement of [isspace]. *)
Definition nonblank (c : ascii) : bool := negb (isspace c).

(** A host on which both authentication attempts fail. *)
Definition unreachable_host : remote :=
  {| connect_ok := false; auth_none_ok := false;
     invoke_shell := Raise (Exn "SSHException") |}.

(** A host that authenticates the client and then refuses the shell. *)
Definition shell_refused : remote :=
  {| connect_ok := true; auth_none_ok := false;
     invoke_shell := Raise (Exn "SSHException") |}.

(** The sentinel command as the terminal echoes it behind a prompt. *)
Definition echoed_prompt : str := lit "# " ++ echo_cmd ++ [LF].

(** ESC ESC [0m [0m hi: removing the inner sequence joins the outer one. *)
Definition nested_escape : str := [ESC; ESC] ++ lit "[0m[0mhi" ++ [LF].

(** *** The claims of the specification, as they are worded *)

Definition classification_as_stated : Prop :=
  forall self cmd sk src pre line rest tok status,
    stdin self = Some sk -> stdout self = Some src ->
    reaches_sentinel (normalize cmd) src pre line rest ->
    nth_error (rsplit1 line) 1 = Some tok -> py_int tok = Some status ->
    exists shin,
      fst (execute self cmd) =
      Ok [PFile shin;
          PList (if (status =? 0)%Z then accumulate (normalize cmd) pre [] else []);
          PList (if (status =? 0)%Z then [] else accumulate (normalize cmd) pre [])].

(** "cmd with trailing newlines trimmed" *)
Definition trailing_newlines_trimmed (cmd : str) : str := rstrip is_newline cmd.

Definition writes_as_stated : Prop :=
  forall self cmd sk,
    stdin self = Some sk ->
    exists sk',
      stdin (snd (execute self cmd)) = Some sk' /\
      written sk' =
      written sk ++ [trailing_newlines_trimmed cmd ++ [LF];
                     lit "echo end of stdOUT buffer. finished with exit status $?" ++ [LF]].

Definition malformed_response_as_stated : Prop :=
  forall self cmd sk src pre line rest tok,
    stdin self = Some sk -> stdout self = Some src ->
    reaches_sentinel (normalize cmd) src pre line rest ->
    nth_error (rsplit1 line) 1 = Some tok -> py_int tok = None ->
    fst (execute self cmd) = Raise (Exn "MalformedResponseError").

Definition not_connected_as_stated : Prop :=
  forall env cmd,
    isConnected (fst (init env)) = false ->
    execute (fst (init env)) cmd = (Raise (Exn "NotConnectedError"), fst (init env)).

Definition no_command_text_as_stated : Prop :=
  forall self cmd shin out err self',
    execute self cmd = (Ok [PFile shin; PList out; PList err], self') ->
    Forall (fun l => contains l echo_cmd = false) (out ++ err) /\
    (forall l t, out = l :: t -> contains l (normalize cmd) = false) /\
    (forall l t, err = l :: t -> contains l (normalize cmd) = false).

Definition sanitized_as_stated : Prop :=
  forall self cmd shin out err self',
    execute self cmd = (Ok [PFile shin; PList out; PList err], self') ->
    Forall (fun l => has_ansi l = false /\ ~ In BS l /\ ~ In CR l) (out ++ err).


Definition connected_after_shell_as_stated : Prop :=
  forall env,
    isConnected (fst (init env)) = true ->
    exists channel, invoke_shell env = Ok channel.

Definition returns_pair_as_stated : Prop :=
  forall self cmd ret self',
    execute self cmd = (Ok ret, self') ->
    exists out err, ret = [PList out; PList err].

(** ** ciaa_config: the command strings *)

Module Config.

Local Open Scope Z_scope.

Definition DATA_BASE_ADDR : Z := 0x43C00000.
Definition PREPROC_BASE_ADDR : Z := 0x43C30000.

Definition RESET_ASYNC_OFFSET : Z := 0x004.
Definition FIFORST_OFFSET : Z := 0x008.
Definition DEBUG_CONTROL_OFFSET : Z := 0x080.

Definition FIFO_INPUT_MUX_OFFSET : Z := 0x04.
Definition DATA_SOURCE_MUX_OFFSET : Z := 0x08.
Definition LOCAL_OSC_FREQ_OFFSET : Z := 0x34.
Definition BEAM_FREQ_OFFSET : Z := 0x0C.
Definition BEAM_FREQ_STRIDE : Z := 0x08.

Definition ELFS_LOCATION : str := lit "/mnt/currentVersions/".

(** Hexadecimal digits of a natural number, lower case, no prefix. *)
Definition hex (n : N) : str :=
  list_ascii_of_string (HexadecimalString.NilZero.string_of_uint (N.to_hex_uint n)).

(** [f'{n:x}'] for a Python int: a minus sign for a negative number, then
    the digits of its absolute value. *)
Definition format_x (n : Z) : str :=
  match n with
  | Z0 => hex 0
  | Zpos p => hex (Npos p)
  | Zneg p => "-"%char :: hex (Npos p)
  end.

Definition axi_write_cmd (reg_addr data : Z) : str :=
  ELFS_LOCATION ++ lit "axi_rw_test.elf w " ++ format_x reg_addr ++ lit " "
    ++ format_x data ++ [LF].

Definition axi_read_cmd (reg_addr : Z) : str :=
  ELFS_LOCATION ++ lit "axi_rw_test.elf r " ++ format_x reg_addr ++ [LF].

Definition reset_async_cmd : str :=
  axi_write_cmd (DATA_BASE_ADDR + RESET_ASYNC_OFFSET) 10.

Definition reset_fifo_cmd : str :=
  axi_write_cmd (DATA_BASE_ADDR + FIFORST_OFFSET) 1.


Definition set_debug_mode_cmd (mode_value : Z) : str :=
  axi_write_cmd (DATA_BASE_ADDR + DEBUG_CONTROL_OFFSET) mode_value.

Definition set_fifo_input_cmd (fifo_input_value : Z) : str :=
  axi_write_cmd (PREPROC_BASE_ADDR + FIFO_INPUT_MUX_OFFSET) fifo_input_value.

Definition set_data_source_cmd (source_value : Z) : str :=
  axi_write_cmd (PREPROC_BASE_ADDR + DATA_SOURCE_MUX_OFFSET) source_value.

(** [set_local_osc_freq_cmd], from line 256 on: [freq_conf] stands for the
    integer that line 255 computes in floating point. *)
Definition local_osc_freq_write (freq_conf : Z) : str :=
  axi_write_cmd (PREPROC_BASE_ADDR + LOCAL_OSC_FREQ_OFFSET) freq_conf.

(** [set_channel_mixer_freq_cmd], from line 301 on: [freq_conf] stands for
    the integer that line 300 computes in floating point. *)
Definition channel_mixer_freq_write (channel_number freq_conf : Z) : str :=
  let reg_addr := PREPROC_BASE_ADDR + BEAM_FREQ_OFFSET + channel_number * BEAM_FREQ_STRIDE in
  axi_write_cmd reg_addr freq_conf.

Definition startup_cmd : str := ELFS_LOCATION ++ lit "startup.elf" ++ [LF].

Definition set_beam_selector_cmd (beam_number : Z) : str :=
  let reg_addr := PREPROC_BASE_ADDR + 0x38 in
  axi_write_cmd reg_addr (Z.land beam_number 0x7).

Definition reboot_cmd : str := lit "reboot" ++ [LF].

End Config.

(** ** main: the window's use of the session *)

(** What the console widget is given: plain text or HTML. *)
Inductive entry :=
| PlainText (text : str)
| Html (markup : str).

(** The state of MainWindow that the handlers below read and write. *)
Record MainWindow := {
  ssh : option ShellHandler;
  ssh_console : list entry;
  acquisition_enabled : bool;
  streaming_active : bool
}.

Definition DQ : ascii := ascii_of_nat 34.

(** [MainWindow.log_message] *)
Definition log_message (w : MainWindow) (message : str) (is_error : bool) : MainWindow :=
  let e :=
    if is_error
    then Html (lit "<span style=" ++ [DQ] ++ lit "color: #E74C3C;" ++ [DQ] ++ lit ">"
               ++ message ++ lit "</span>")
    else PlainText message in
  {| ssh := ssh w; ssh_console := ssh_console w ++ [e];
     acquisition_enabled := acquisition_enabled w;
     streaming_active := streaming_active w |}.

Definition with_ssh (w : MainWindow) (s : ShellHandler) : MainWindow :=
  {| ssh := Some s; ssh_console := ssh_console w;
     acquisition_enabled := acquisition_enabled w;
     streaming_active := streaming_active w |}.

(** ['ERROR: No hay conexion SSH'], with its o acute (code point 243). *)
Definition no_connection : str :=
  lit "ERROR: No hay conexi" ++ [ascii_of_nat 243] ++ lit "n SSH".

(** [if not self.ssh or not self.ssh.isConnected] *)
Definition usable (w : MainWindow) : option ShellHandler :=
  match ssh w with
  | Some s => if isConnected s then Some s else None
  | None => None
  end.

(** [for line in stdout: self.log_message(line.strip())] *)
Definition log_output (w : MainWindow) (lines : list str) : MainWindow :=
  fold_left (fun w line => log_message w (strip isspace line) false) lines w.

(** [for line in stderr: self.log_message(f"ERROR: {line.strip()}", is_error=True)] *)
Definition log_errors (w : MainWindow) (lines : list str) : MainWindow :=
  fold_left (fun w line => log_message w (lit "ERROR: " ++ strip isspace line) true) lines w.

Section Window.

(** [str(e)] for the exceptions that reach the handlers. *)
Variable exn_text : exn -> str.

(** [MainWindow.write_ssh].  The session object is updated in place by
    [execute], also when it raises. *)
Definition write_ssh (w : MainWindow) (cmd : str) : MainWindow :=
  match usable w with
  | None => log_message w no_connection false
  | Some s =>
      match execute s cmd with
      | (Ok [_; PList stdout; PList stderr], s') =>
          let w := with_ssh w s' in
          let w := log_message w (lit "> " ++ cmd) false in
          let w := log_output w stdout in
          log_errors w stderr
      | (Ok _, s') =>
          (* [execute] returns no other shape of tuple *)
          log_message (with_ssh w s') (lit "ERROR SSH: " ++ exn_text ValueError) true
      | (Raise e, s') =>
          log_message (with_ssh w s') (lit "ERROR SSH: " ++ exn_text e) true
      end
  end.

(** [MainWindow.reset_system] *)
Definition reset_system (w : MainWindow) : MainWindow :=
  let w := write_ssh w Config.reset_async_cmd in
  let w := write_ssh w Config.reset_fifo_cmd in
  log_message w (lit "=== RESET COMPLETO ===") false.


(** [textClickHandler]: the window and the text of the line edit afterwards. *)
Definition textClickHandler (w : MainWindow) (text : str) : MainWindow * str :=
  match usable w with
  | None => (w, text)
  | Some _ =>
      let cmd := strip isspace text in
      match cmd with
      | [] => (w, text)
      | _ :: _ => (write_ssh w cmd, [])
      end
  end.

End Window.

(** The input file of the window's session, if it has one. *)
Definition window_sink (w : MainWindow) : option wfile :=
  match ssh w with
  | Some s => stdin s
  | None => None
  end.

(** The markup that [log_message] gives an error message. *)
Definition error_span (message : str) : str :=
  lit "<span style=" ++ [DQ] ++ lit "color: #E74C3C;" ++ [DQ] ++ lit ">"
    ++ message ++ lit "</span>".

(** One of 0-9, a-f. *)
Definition is_hex_digit (c : ascii) : bool := isdigit c || in_range 97 102 c.

(** A line cut at escape sequences: the stretches of text that are kept,
    with one removed sequence between each two of them. *)
Fixpoint interleave (kept removed : list str) : str :=
  match kept, removed with
  | k :: kept', m :: removed' => k ++ m ++ interleave kept' removed'
  | k :: _, [] => k
  | [], _ => []
  end.

(** *** Well-formed terminal output *)

(** A piece of a line: plain text, or one control sequence with its
    introducer (the single character CSI or ESC followed by an opening
    bracket), parameter characters, intermediate characters and final
    character. *)
Inductive chunk :=
| Text (t : str)
| Control (eight_bit : bool) (params inters : str) (final : ascii).

Definition render (c : chunk) : str :=
  match c with
  | Text t => t
  | Control eight_bit params inters final =>
      (if eight_bit then [CSI] else [ESC; "["%char]) ++ params ++ inters ++ [final]
  end.

Definition is_plain (c : ascii) : bool :=
  negb (Ascii.eqb c ESC) && negb (Ascii.eqb c CSI) &&
  negb (Ascii.eqb c BS) && negb (Ascii.eqb c CR).

Definition wellformed (c : chunk) : bool :=
  match c with
  | Text t => forallb is_plain t
  | Control _ params inters final =>
      forallb is_param params && forallb is_inter inters && is_final final
  end.

Definition text_of (c : chunk) : str :=
  match c with
  | Text t => t
  | Control _ _ _ _ => []
  end.

(** ** Lemmas on the string operations *)

Section StringLemmas.

Variable f : ascii -> bool.

Lemma take_drop (s : str) : takewhile f s ++ dropwhile f s = s.
Proof.
  induction s as [|c s IH]; simpl; [reflexivity|].
  destruct (f c); simpl; [now rewrite IH | reflexivity].
Qed.

Lemma takewhile_all (s : str) : Forall (fun c => f c = true) (takewhile f s).
Proof.
  induction s as [|c s IH]; simpl; [constructor|].
  destruct (f c) eqn:E; constructor; assumption.
Qed.

Lemma dropwhile_head (s : str) c t : dropwhile f s = c :: t -> f c = false.
Proof.
  induction s as [|x s IH]; simpl; [discriminate|].
  destruct (f x) eqn:E; [assumption|].
  intros H; injection H as -> _. exact E.
Qed.

Lemma dropwhile_suffix (a : str) c b :
  f c = false -> exists w, dropwhile f (a ++ c :: b) = w ++ c :: b.
Proof.
  intros Hc. induction a as [|x a IH]; simpl.
  - rewrite Hc. now exists [].
  - destruct (f x); [assumption|]. now exists (x :: a).
Qed.

End StringLemmas.

Lemma startswith_app (s p : str) :
  startswith s p = true -> exists r, s = p ++ r.
Proof.
  revert s. induction p as [|c p IH]; intros s H.
  - now exists s.
  - destruct s as [|d s]; simpl in H; [discriminate|].
    apply andb_prop in H as [Hc Hp].
    apply Ascii.eqb_eq in Hc as ->.
    destruct (IH _ Hp) as [r ->]. now exists r.
Qed.

Lemma startswith_nil (s : str) : startswith s [] = true.
Proof. now destruct s. Qed.

Lemma contains_nil (s : str) : contains s [] = true.
Proof. destruct s; simpl; now rewrite ?startswith_nil. Qed.

Lemma remove_char_absent c (s : str) : ~ In c (remove_char c s).
Proof.
  unfold remove_char. intros H. apply filter_In in H as [_ H].
  now rewrite Ascii.eqb_refl in H.
Qed.

Lemma remove_char_incl c (s : str) x : In x (remove_char c s) -> In x s.
Proof. unfold remove_char. intros H. now apply filter_In in H. Qed.

Lemma clean_line_no_control (line : str) :
  ~ In BS (clean_line line) /\ ~ In CR (clean_line line).
Proof.
  unfold clean_line. split.
  - intros H. apply remove_char_incl in H. now apply remove_char_absent in H.
  - apply remove_char_absent.
Qed.

(** What [normalize] removes: newlines at both ends, and all of them. *)
Lemma normalize_spec (cmd : str) :
  exists a b,
    cmd = a ++ normalize cmd ++ b /\
    Forall (fun c => c = LF) a /\ Forall (fun c => c = LF) b /\
    (forall c t, normalize cmd = c :: t -> c <> LF) /\
    (forall t c, normalize cmd = t ++ [c] -> c <> LF).
Proof.
  unfold normalize, strip, rstrip, lstrip.
  set (m := dropwhile is_newline cmd).
  exists (takewhile is_newline cmd), (rev (takewhile is_newline (rev m))).
  assert (Hnl : forall l, Forall (fun c => is_newline c = true) l -> Forall (fun c => c = LF) l).
  { intros l. apply Forall_impl. intros c. apply Ascii.eqb_eq. }
  assert (Hm : rev (dropwhile is_newline (rev m)) ++ rev (takewhile is_newline (rev m)) = m).
  { rewrite <- rev_app_distr, take_drop. apply rev_involutive. }
  repeat split.
  - rewrite Hm. subst m. symmetry. apply take_drop.
  - apply Hnl, takewhile_all.
  - apply Hnl, Forall_rev, takewhile_all.
  - intros c t H ->. rewrite H in Hm. simpl in Hm. symmetry in Hm.
    apply dropwhile_head in Hm. unfold is_newline in Hm.
    now rewrite Ascii.eqb_refl in Hm.
  - intros t c H ->.
    apply (f_equal (@rev ascii)) in H. rewrite rev_involutive, rev_app_distr in H.
    simpl in H. apply dropwhile_head in H.
    unfold is_newline in H. now rewrite Ascii.eqb_refl in H.
Qed.

(** On a line that begins with the sentinel phrase, [rsplit(maxsplit=1)]
    always has two fields, and the second is the last run of non-blank
    characters of the line: index 1 never raises IndexError. *)
Lemma rsplit1_sentinel (line : str) :
  startswith line finish = true ->
  exists head tok trail,
    line = head ++ tok ++ trail /\
    nth_error (rsplit1 line) 1 = Some tok /\
    Forall (fun c => isspace c = true) trail /\
    Forall (fun c => isspace c = false) tok /\
    tok <> [] /\
    exists h c, head = h ++ [c] /\ isspace c = true.
Proof.
  intros H. apply startswith_app in H as [r ->].
  remember (finish ++ r) as line eqn:El.
  assert (Hrev : rev line =
                 rev r ++ "s"%char :: lit "utats tixe htiw dehsinif .reffub TUOdts fo dne").
  { subst line. now rewrite rev_app_distr. }
  clear El.
  destruct (dropwhile_suffix isspace (rev r) "s"%char
              (lit "utats tixe htiw dehsinif .reffub TUOdts fo dne") eq_refl) as [w Hw].
  rewrite <- Hrev in Hw. clear Hrev.
  remember (dropwhile isspace (rev line)) as r1 eqn:Er1.
  assert (Hw' : r1 = (w ++ lit "sutats tixe htiw dehsinif .reffub TUOdts fo")
                      ++ " "%char :: lit "dne").
  { rewrite Hw, <- app_assoc. reflexivity. }
  destruct (dropwhile_suffix nonblank
              (w ++ lit "sutats tixe htiw dehsinif .reffub TUOdts fo")
              " "%char (lit "dne") eq_refl) as [w2 Hw2].
  rewrite <- Hw' in Hw2. clear Hw'.
  remember (dropwhile nonblank r1) as d eqn:Ed.
  assert (Hw2' : d = (w2 ++ [" "%char]) ++ "d"%char :: lit "ne").
  { rewrite Hw2, <- app_assoc. reflexivity. }
  destruct (dropwhile_suffix isspace (w2 ++ [" "%char]) "d"%char (lit "ne") eq_refl)
    as [w3 Hw3].
  rewrite <- Hw2' in Hw3. clear Hw2'.
  remember (dropwhile isspace d) as r2 eqn:Er2.
  assert (Hline : line = rev d ++ rev (takewhile nonblank r1)
                          ++ rev (takewhile isspace (rev line))).
  { rewrite app_assoc, <- !rev_app_distr. subst d.
    rewrite (take_drop nonblank r1). subst r1. rewrite take_drop.
    now rewrite rev_involutive. }
  assert (H1 : exists x r1', r1 = x :: r1' /\ isspace x = false).
  { destruct r1 as [|x r1']; [destruct w; discriminate|].
    exists x, r1'. split; [reflexivity|].
    symmetry in Er1. now apply dropwhile_head in Er1. }
  assert (H2 : exists c t, d = c :: t /\ isspace c = true).
  { destruct d as [|c t]; [destruct w2; discriminate|].
    exists c, t. split; [reflexivity|].
    symmetry in Ed. apply dropwhile_head in Ed.
    unfold nonblank in Ed. now apply negb_false_iff in Ed. }
  assert (H3 : exists y r2', r2 = y :: r2').
  { destruct r2 as [|y r2']; [destruct w3; discriminate|]. now exists y, r2'. }
  exists (rev d), (rev (takewhile nonblank r1)), (rev (takewhile isspace (rev line))).
  split; [exact Hline|]. split; [|split; [|split; [|split]]].
  - unfold rsplit1. fold nonblank. rewrite <- Er1, <- Ed, <- Er2.
    destruct H1 as (x & r1' & -> & _). destruct H3 as (y & r2' & ->). reflexivity.
  - apply Forall_rev, takewhile_all.
  - apply Forall_rev. eapply Forall_impl; [|apply takewhile_all].
    intros c Hc. unfold nonblank in Hc. now apply negb_true_iff in Hc.
  - destruct H1 as (x & r1' & -> & Hx).
    simpl. unfold nonblank at 1. rewrite Hx. simpl.
    intros Hnil. apply (f_equal (@length ascii)) in Hnil.
    rewrite length_app in Hnil. simpl in Hnil. lia.
  - destruct H2 as (c & t & -> & Hc). now exists (rev t), c.
Qed.

(** ** Lemmas on the read loop *)

Lemma is_sentinel_false_body cmd sh line :
  is_sentinel cmd line = false ->
  loop_body cmd sh line =
  Continue (if is_echo cmd line then [] else sh ++ [clean_line line]).
Proof.
  unfold is_sentinel, loop_body. destruct (is_echo cmd line); simpl; [reflexivity|].
  now intros ->.
Qed.

Lemma read_loop_prefix cmd pre src sh :
  Forall (fun l => is_sentinel cmd l = false) pre ->
  read_loop cmd (map Line pre ++ src) sh = read_loop cmd src (accumulate cmd pre sh).
Proof.
  intros H. revert sh. induction H as [|line pre Hl _ IH]; intros sh; [reflexivity|].
  simpl. rewrite (is_sentinel_false_body _ _ _ Hl).
  destruct (is_echo cmd line); apply IH.
Qed.

(** Every way the loop can end without an exception: the source ran out, or
    a line took the sentinel branch and its last field parsed. *)
Lemma read_loop_ok cmd src sh l rest :
  read_loop cmd src sh = (Ok l, rest) ->
  (broke l = false /\ rest = [] /\ exit_status l = 0%Z /\ sherr l = [] /\
   exists pre, src = map Line pre /\
     Forall (fun x => is_sentinel cmd x = false) pre /\
     shout l = accumulate cmd pre sh)
  \/
  (broke l = true /\
   exists pre line tok, src = map Line pre ++ Line line :: rest /\
     Forall (fun x => is_sentinel cmd x = false) pre /\
     is_sentinel cmd line = true /\
     nth_error (rsplit1 line) 1 = Some tok /\
     py_int tok = Some (exit_status l) /\
     (if (exit_status l =? 0)%Z
      then shout l = accumulate cmd pre sh /\ sherr l = []
      else shout l = [] /\ sherr l = accumulate cmd pre sh)).
Proof.
  revert sh. induction src as [|r src IH]; intros sh H; simpl in H.
  - injection H as <- <-. left. simpl. repeat split; trivial.
    exists []. repeat split; constructor.
  - destruct r as [line|e]; [|discriminate].
    destruct (is_sentinel cmd line) eqn:Es.
    + right. unfold loop_body in H. unfold is_sentinel in Es.
      apply andb_prop in Es as [Ee Ef]. apply negb_true_iff in Ee.
      rewrite Ee, Ef in H.
      destruct (nth_error (rsplit1 line) 1) as [tok|] eqn:Et; [|discriminate].
      destruct (py_int tok) as [st|] eqn:Ep; [|discriminate].
      assert (Hs : is_sentinel cmd line = true)
        by (unfold is_sentinel; now rewrite Ee, Ef).
      destruct (st =? 0)%Z eqn:Ez; injection H as <- <-; simpl;
        (split; [reflexivity|]); exists [], line, tok; simpl; rewrite Ez;
        repeat split; trivial.
    + rewrite (is_sentinel_false_body _ _ _ Es) in H.
      destruct (IH _ H) as [(Hb & Hr & Hx & He & pre & -> & Hpre & Hsh)
                           |(Hb & pre & line' & tok & -> & Hpre & Hl & Ht & Hp & Hc)].
      * left. repeat split; trivial. exists (line :: pre). repeat split.
        -- now constructor.
        -- simpl. now destruct (is_echo cmd line).
      * right. split; trivial. exists (line :: pre), line', tok.
        repeat split; trivial.
        -- now constructor.
        -- simpl. now destruct (is_echo cmd line).
Qed.

(** An exception leaves the loop only from a failing read or from parsing
    the exit status. *)
Lemma read_loop_raise cmd src sh e rest :
  read_loop cmd src sh = (Raise e, rest) ->
  exists pre, Forall (fun x => is_sentinel cmd x = false) pre /\
    (src = map Line pre ++ Fails e :: rest \/
     exists line, src = map Line pre ++ Line line :: rest /\
       is_sentinel cmd line = true /\ (e = ValueError \/ e = IndexError)).
Proof.
  revert sh. induction src as [|r src IH]; intros sh H; simpl in H; [discriminate|].
  destruct r as [line|e'].
  - destruct (is_sentinel cmd line) eqn:Es.
    + exists []. split; [constructor|]. right. exists line.
      unfold loop_body in H. pose proof Es as Es'. unfold is_sentinel in Es.
      apply andb_prop in Es as [Ee Ef]. apply negb_true_iff in Ee.
      rewrite Ee, Ef in H.
      destruct (nth_error (rsplit1 line) 1) as [tok|].
      * destruct (py_int tok) as [st|].
        -- destruct (st =? 0)%Z; discriminate.
        -- injection H as <- <-. auto.
      * injection H as <- <-. auto.
    + rewrite (is_sentinel_false_body _ _ _ Es) in H.
      destruct (IH _ H) as (pre & Hpre & Hcase).
      exists (line :: pre). split; [now constructor|].
      destruct Hcase as [->|(line' & -> & Hl & He)]; [now left|].
      right. exists line'. auto.
  - injection H as <- <-. exists []. split; [constructor|]. now left.
Qed.

Lemma accumulate_Forall (P : str -> Prop) cmd pre sh :
  Forall P sh ->
  Forall (fun raw => is_echo cmd raw = false -> P (clean_line raw)) pre ->
  Forall P (accumulate cmd pre sh).
Proof.
  intros Hsh Hpre. revert sh Hsh.
  induction Hpre as [|line pre Hl _ IH]; intros sh Hsh; simpl; [assumption|].
  destruct (is_echo cmd line); apply IH; [constructor|].
  apply Forall_app. split; [assumption|]. constructor; [now apply Hl|constructor].
Qed.

Lemma sentinel_body cmd sh line tok :
  is_sentinel cmd line = true ->
  nth_error (rsplit1 line) 1 = Some tok ->
  loop_body cmd sh line =
  match py_int tok with
  | None => Throw ValueError
  | Some status =>
      if (status =? 0)%Z
      then Break {| shout := sh; sherr := []; exit_status := status; broke := true |}
      else Break {| shout := []; sherr := sh; exit_status := status; broke := true |}
  end.
Proof.
  unfold is_sentinel, loop_body. intros H Ht.
  apply andb_prop in H as [He Hf]. apply negb_true_iff in He.
  now rewrite He, Hf, Ht.
Qed.

Lemma execute_working self cmd sk :
  stdin self = Some (Working sk) ->
  execute self cmd = receive self (normalize cmd) (after_writes sk cmd).
Proof. intros H. unfold execute. now rewrite H. Qed.

(** When [execute] gets as far as the read loop, three operations on the
    file have gone through. *)
Lemma execute_receive self cmd r self' :
  execute self cmd = (r, self') ->
  (exists e, r = Raise e /\ stdout self' = stdout self) \/
  (exists shin, receive self (normalize cmd) shin = (r, self')).
Proof.
  unfold execute. destruct (stdin self) as [f|].
  2:{ intros H. injection H as <- <-. left. now exists AttributeError. }
  destruct (write f (normalize cmd ++ [LF])) as [[e|] f1].
  { intros H. injection H as <- <-. left. now exists e. }
  destruct (write f1 (echo_cmd ++ [LF])) as [[e|] f2].
  { intros H. injection H as <- <-. left. now exists e. }
  destruct (flush f2) as [[e|] shin].
  { intros H. injection H as <- <-. left. now exists e. }
  intros H. right. now exists shin.
Qed.

Lemma execute_ok_inv self cmd ret self' :
  execute self cmd = (Ok ret, self') ->
  exists (shin : wfile) src l rest,
    stdin self' = Some shin /\ stdout self = Some src /\
    read_loop (normalize cmd) src [] = (Ok l, rest) /\
    ret = [PFile shin;
           PList (trim (normalize cmd) (shout l));
           PList (trim (normalize cmd) (sherr l))] /\
    self' = {| isConnected := isConnected self;
               stdin := Some shin;
               stdout := Some rest |}.
Proof.
  intros H. apply execute_receive in H as [(e & He & _)|(shin & H)]; [discriminate|].
  unfold receive in H. destruct (stdout self) as [src|]; [|discriminate].
  destruct (read_loop (normalize cmd) src []) as [[l|e] rest] eqn:E; [|discriminate].
  injection H as <- <-. now exists shin, src, l, rest.
Qed.

Lemma trim_trims cmd buf : trims cmd buf (trim cmd buf).
Proof.
  unfold trim.
  assert (Hmid : exists back, buf = pop_last_if echo_cmd buf ++ back /\
    (back = [] /\ (forall b x, buf = b ++ [x] -> contains x echo_cmd = false) \/
     exists x, back = [x] /\ contains x echo_cmd = true)).
  { destruct buf as [|a buf'].
    - exists []. split; [reflexivity|]. left. split; [reflexivity|].
      intros b x H. now destruct b.
    - remember (a :: buf') as B eqn:Eb.
      assert (Hne : B <> []) by (subst B; discriminate).
      assert (Hp : pop_last_if echo_cmd B =
                   if contains (last B []) echo_cmd then removelast B else B)
        by (subst B; reflexivity).
      rewrite Hp. clear Eb Hp.
      destruct (contains (last B []) echo_cmd) eqn:Ec.
      + exists [last B []]. split; [now apply app_removelast_last|].
        right. now exists (last B []).
      + exists []. split; [now rewrite app_nil_r|]. left. split; [reflexivity|].
        intros b x H. rewrite H, last_last in Ec. exact Ec. }
  destruct Hmid as (back & Hbuf & Hback).
  destruct (pop_last_if echo_cmd buf) as [|y t]; simpl.
  - apply (Trims cmd buf [] [] back); trivial.
    left. split; [reflexivity|]. discriminate.
  - destruct (contains y cmd) eqn:Ec.
    + apply (Trims cmd buf t [y] back); trivial. right. now exists y.
    + apply (Trims cmd buf (y :: t) [] back); trivial. left. split; [reflexivity|].
      intros y' t' H. now injection H as <- _.
Qed.

Lemma trims_incl cmd buf out x : trims cmd buf out -> In x out -> In x buf.
Proof.
  intros [front back -> _ _] H. apply in_or_app. right. apply in_or_app. now left.
Qed.

Lemma read_loop_empty_cmd src sh :
  (exists l, read_loop [] src sh = (Ok l, []) /\
     broke l = false /\ exit_status l = 0%Z /\ sherr l = [] /\
     shout l = match src with [] => sh | _ :: _ => [] end) \/
  (exists pre e rest, src = map Line pre ++ Fails e :: rest /\
     read_loop [] src sh = (Raise e, rest)).
Proof.
  revert sh. induction src as [|r src IH]; intros sh.
  - left. eexists. split; [reflexivity|]. now simpl.
  - destruct r as [line|e].
    + simpl. unfold loop_body, is_echo. rewrite startswith_nil. simpl.
      destruct (IH []) as [(l & -> & Hb & Hx & He & Hs)|(pre & e & rest & -> & ->)].
      * left. exists l. repeat split; trivial. rewrite Hs. now destruct src.
      * right. now exists (line :: pre), e, rest.
    + right. now exists [], e, src.
Qed.

(** ** Classification by exit status *)

(** C1, as worded, fails: with the command [ls] and the single output line
    [tools], exit status 0, the accumulated line is not returned, because
    the final trim drops a first line that contains the command text. *)
Lemma classification_drops_output : ~ classification_as_stated.
Proof.
  intros H.
  destruct (H (session [Line (lit "tools" ++ [LF]); Line (sentinel_line "0")])
              (lit "ls") _ _ [lit "tools" ++ [LF]] (sentinel_line "0") []
              (lit "0") 0%Z eq_refl eq_refl) as [shin Hx].
  - split; [reflexivity|]. split; [|reflexivity].
    constructor; [reflexivity|constructor].
  - reflexivity.
  - reflexivity.
  - vm_compute in Hx. discriminate.
Qed.

(** C1 (amended): when a line takes the sentinel branch and its last field
    parses to [status], the lines accumulated so far, after the final trim
    of their two ends, are returned as standard output with an empty error
    sequence if [status] is 0, and as the error sequence with an empty
    standard output otherwise; nothing else decides the classification. *)
Theorem execute_classification self cmd sk src pre line rest tok status :
  stdin self = Some sk -> stdout self = Some src ->
  reaches_sentinel (normalize cmd) src pre line rest ->
  nth_error (rsplit1 line) 1 = Some tok -> py_int tok = Some status ->
  execute self cmd =
  (Ok [PFile (after_writes sk cmd);
       PList (if (status =? 0)%Z
              then trim (normalize cmd) (accumulate (normalize cmd) pre []) else []);
       PList (if (status =? 0)%Z
              then [] else trim (normalize cmd) (accumulate (normalize cmd) pre []))],
   {| isConnected := isConnected self;
      stdin := Some (after_writes sk cmd);
      stdout := Some rest |}).
Proof.
  intros Hin Hout (-> & Hpre & Hs) Ht Hp.
  rewrite (execute_working _ _ _ Hin). unfold receive.
  rewrite Hout, (read_loop_prefix _ _ _ _ Hpre).
  simpl read_loop. rewrite (sentinel_body _ _ _ _ Hs Ht), Hp.
  destruct (status =? 0)%Z; reflexivity.
Qed.

Lemma execute_classification_witness :
  execute (session [Line (lit "ls" ++ [LF]); Line (lit "No such file" ++ [LF]);
                    Line (sentinel_line "2"); Line (lit "# ")])
          (lit "ls") =
  (Ok [PFile (after_writes {| written := []; flushes := 0 |} (lit "ls"));
       PList [];
       PList [lit "No such file" ++ [LF]]],
   {| isConnected := true;
      stdin := Some (after_writes {| written := []; flushes := 0 |} (lit "ls"));
      stdout := Some [Line (lit "# ")] |}).
Proof.
  apply (execute_classification
           (session [Line (lit "ls" ++ [LF]); Line (lit "No such file" ++ [LF]);
                     Line (sentinel_line "2"); Line (lit "# ")])
           (lit "ls") {| written := []; flushes := 0 |}
           [Line (lit "ls" ++ [LF]); Line (lit "No such file" ++ [LF]);
            Line (sentinel_line "2"); Line (lit "# ")]
           [lit "ls" ++ [LF]; lit "No such file" ++ [LF]]
           (sentinel_line "2") [Line (lit "# ")] (lit "2") 2%Z).
  - reflexivity.
  - reflexivity.
  - split; [reflexivity|]. split; [|reflexivity].
    repeat constructor.
  - reflexivity.
  - reflexivity.
Defined.

(** ** The two writes *)

(** C2, as worded, fails: [strip] trims newlines at both ends, so for the
    command [\nls] the first write is [ls\n], not [\nls\n]. *)
Lemma writes_strip_both_ends : ~ writes_as_stated.
Proof.
  intros H.
  destruct (H (session []) (LF :: lit "ls") _ eq_refl) as (sk' & Hs & Hw).
  vm_compute in Hs. injection Hs as <-. vm_compute in Hw. discriminate.
Qed.

(** C2 (amended): whatever the output source holds, execute performs
    exactly two writes on the input sink and then one flush: first the
    command with the newlines at both of its ends trimmed, followed by one
    newline, then the sentinel command
    [echo end of stdOUT buffer. finished with exit status $?] followed by
    one newline. *)
Theorem execute_writes self cmd sk :
  stdin self = Some sk ->
  exists sk',
    stdin (snd (execute self cmd)) = Some sk' /\
    written sk' =
    written sk ++ [normalize cmd ++ [LF];
                   lit "echo end of stdOUT buffer. finished with exit status $?" ++ [LF]] /\
    flushes sk' = S (flushes sk) /\
    exists a b,
      cmd = a ++ normalize cmd ++ b /\
      Forall (fun c => c = LF) a /\ Forall (fun c => c = LF) b /\
      (forall c t, normalize cmd = c :: t -> c <> LF) /\
      (forall t c, normalize cmd = t ++ [c] -> c <> LF).
Proof.
  intros Hin. exists (after_writes sk cmd). split; [|split; [|split]].
  - rewrite (execute_working _ _ _ Hin). unfold receive.
    destruct (stdout self) as [src|]; [|reflexivity].
    destruct (read_loop (normalize cmd) src []) as [[l|e] rest]; reflexivity.
  - unfold after_writes. simpl. now rewrite <- app_assoc.
  - reflexivity.
  - apply normalize_spec.
Qed.

Lemma execute_writes_witness :
  exists sk',
    stdin (snd (execute (session [Line (sentinel_line "0")])
                        (LF :: lit "ls" ++ [LF; LF]))) = Some sk' /\
    written sk' =
    [] ++ [normalize (LF :: lit "ls" ++ [LF; LF]) ++ [LF];
           lit "echo end of stdOUT buffer. finished with exit status $?" ++ [LF]] /\
    flushes sk' = 1 /\
    exists a b,
      LF :: lit "ls" ++ [LF; LF] = a ++ normalize (LF :: lit "ls" ++ [LF; LF]) ++ b /\
      Forall (fun c => c = LF) a /\ Forall (fun c => c = LF) b /\
      (forall c t, normalize (LF :: lit "ls" ++ [LF; LF]) = c :: t -> c <> LF) /\
      (forall t c, normalize (LF :: lit "ls" ++ [LF; LF]) = t ++ [c] -> c <> LF).
Proof.
  apply (execute_writes (session [Line (sentinel_line "0")])
                        (LF :: lit "ls" ++ [LF; LF])
                        {| written := []; flushes := 0 |}).
  reflexivity.
Defined.

(** ** Parsing the exit status *)

(** C3, as worded, fails: when the last field of the sentinel line is not
    an integer literal, the exception that leaves execute is the ValueError
    of [int], not a MalformedResponseError. *)
Lemma malformed_status_raises_ValueError : ~ malformed_response_as_stated.
Proof.
  intros H.
  assert (Hx := H (session [Line (finish ++ [LF])]) (lit "ls") _ _ []
                  (finish ++ [LF]) [] (lit "status") eq_refl eq_refl).
  assert (Hr : reaches_sentinel (normalize (lit "ls")) [Line (finish ++ [LF])] []
                 (finish ++ [LF]) []).
  { split; [reflexivity|]. split; [constructor|reflexivity]. }
  specialize (Hx Hr eq_refl eq_refl). vm_compute in Hx. discriminate.
Qed.

(** C3 (amended): a line taking the sentinel branch always has a last
    whitespace-delimited field, and execute parses that field as the integer
    exit status; if the field is not an integer literal, execute fails with
    ValueError (the code defines no MalformedResponseError), returns
    nothing, and leaves the session object as it was apart from the
    commands written and the lines consumed. *)
Theorem sentinel_status_parse self cmd sk src pre line rest :
  stdin self = Some sk -> stdout self = Some src ->
  reaches_sentinel (normalize cmd) src pre line rest ->
  exists head tok trail,
    line = head ++ tok ++ trail /\
    Forall (fun c => isspace c = true) trail /\
    Forall (fun c => isspace c = false) tok /\ tok <> [] /\
    (exists h c, head = h ++ [c] /\ isspace c = true) /\
    match py_int tok with
    | Some status =>
        exists l, read_loop (normalize cmd) src [] = (Ok l, rest) /\
                  exit_status l = status /\ broke l = true
    | None =>
        execute self cmd =
        (Raise ValueError,
         {| isConnected := isConnected self;
            stdin := Some (after_writes sk cmd);
            stdout := Some rest |})
    end.
Proof.
  intros Hin Hout (-> & Hpre & Hs).
  assert (Hf : startswith line finish = true).
  { unfold is_sentinel in Hs. now apply andb_prop in Hs as [_ Hf]. }
  destruct (rsplit1_sentinel line Hf)
    as (head & tok & trail & Hl & Ht & Htrail & Htok & Hne & Hhead).
  exists head, tok, trail. repeat (split; [assumption|]).
  pose proof (sentinel_body (normalize cmd) (accumulate (normalize cmd) pre []) line tok Hs Ht)
    as Hb.
  destruct (py_int tok) as [status|] eqn:Ep.
  - rewrite (read_loop_prefix _ _ _ _ Hpre). simpl read_loop. rewrite Hb.
    destruct (status =? 0)%Z; eexists; (split; [reflexivity|]); now simpl.
  - rewrite (execute_working _ _ _ Hin). unfold receive.
    rewrite Hout, (read_loop_prefix _ _ _ _ Hpre).
    simpl read_loop. now rewrite Hb.
Qed.

Lemma sentinel_status_parse_witness :
  exists head tok trail,
    sentinel_line "127" = head ++ tok ++ trail /\
    Forall (fun c => isspace c = true) trail /\
    Forall (fun c => isspace c = false) tok /\ tok <> [] /\
    (exists h c, head = h ++ [c] /\ isspace c = true) /\
    match py_int tok with
    | Some status =>
        exists l, read_loop (normalize (lit "foo"))
                    [Line (lit "sh: foo: not found" ++ [LF]); Line (sentinel_line "127")] []
                  = (Ok l, []) /\
                  exit_status l = status /\ broke l = true
    | None =>
        execute (session [Line (lit "sh: foo: not found" ++ [LF]);
                          Line (sentinel_line "127")]) (lit "foo") =
        (Raise ValueError,
         {| isConnected := true;
            stdin := Some (after_writes {| written := []; flushes := 0 |} (lit "foo"));
            stdout := Some [] |})
    end.
Proof.
  apply (sentinel_status_parse
           (session [Line (lit "sh: foo: not found" ++ [LF]); Line (sentinel_line "127")])
           (lit "foo") {| written := []; flushes := 0 |}
           [Line (lit "sh: foo: not found" ++ [LF]); Line (sentinel_line "127")]
           [lit "sh: foo: not found" ++ [LF]] (sentinel_line "127") []).
  - reflexivity.
  - reflexivity.
  - split; [reflexivity|]. split; [|reflexivity]. repeat constructor.
Defined.

(** ** A session that is not connected *)

(** C4, as worded, fails: execute has no connection check; on a session
    whose constructor gave up, the missing [stdin] attribute makes it fail
    with AttributeError, not NotConnectedError. *)
Lemma not_connected_raises_AttributeError : ~ not_connected_as_stated.
Proof.
  intros H. specialize (H unreachable_host (lit "ls") eq_refl).
  vm_compute in H. discriminate.
Qed.

(** C4 (amended): on a session left not connected by its constructor,
    execute fails at once with AttributeError (the code defines no
    NotConnectedError), for every command, and the session object is
    unchanged: nothing is written and nothing is read. *)
Theorem execute_not_connected env cmd :
  isConnected (fst (init env)) = false ->
  execute (fst (init env)) cmd = (Raise AttributeError, fst (init env)).
Proof.
  unfold init.
  destruct (connect_ok env || auth_none_ok env).
  - destruct (invoke_shell env); discriminate.
  - reflexivity.
Qed.

Lemma execute_not_connected_witness :
  execute (fst (init unreachable_host)) (lit "ls") =
  (Raise AttributeError, fst (init unreachable_host)).
Proof.
  apply (execute_not_connected unreachable_host (lit "ls")). reflexivity.
Defined.

(** ** Residual command text *)

(** C5, as worded, fails: only the last line of a buffer is tested for the
    sentinel-echo command text.  Two output lines holding it behind a
    prompt leave one of them in the returned standard output. *)
Lemma echo_text_survives_trim : ~ no_command_text_as_stated.
Proof.
  intros H.
  assert (Hx : execute (session [Line echoed_prompt; Line echoed_prompt;
                                 Line (sentinel_line "0")]) (lit "ls") =
               (Ok [PFile (after_writes {| written := []; flushes := 0 |} (lit "ls"));
                    PList [echoed_prompt]; PList []],
                {| isConnected := true;
                   stdin := Some (after_writes {| written := []; flushes := 0 |} (lit "ls"));
                   stdout := Some [] |})) by reflexivity.
  apply H in Hx as (Hall & _). inversion Hall as [|? ? Hc _].
  vm_compute in Hc. discriminate.
Qed.

Lemma pop_last_if_nonempty pat (buf : list str) :
  buf <> [] ->
  pop_last_if pat buf = if contains (last buf []) pat then removelast buf else buf.
Proof. destruct buf; [now intros H|reflexivity]. Qed.

(** [trims] leaves one choice only: the result of the code's trim. *)
Lemma trims_trim cmd buf out : trims cmd buf out -> out = trim cmd buf.
Proof.
  intros [front back Hbuf Hback Hfront]. unfold trim.
  assert (Hmid : pop_last_if echo_cmd buf = front ++ out).
  { destruct Hback as [[-> Hlast]|(x & -> & Hx)].
    - rewrite app_nil_r in Hbuf. rewrite <- Hbuf. clear Hbuf.
      destruct buf as [|a buf']; [reflexivity|].
      remember (a :: buf') as B eqn:EB.
      assert (Hne : B <> []) by (subst B; discriminate).
      rewrite (pop_last_if_nonempty _ _ Hne).
      now rewrite (Hlast (removelast B) (last B []) (app_removelast_last [] Hne)).
    - rewrite app_assoc in Hbuf. rewrite Hbuf.
      rewrite pop_last_if_nonempty by (now destruct (front ++ out)).
      now rewrite last_last, Hx, removelast_last. }
  rewrite Hmid.
  destruct Hfront as [[-> Hhead]|(y & -> & Hy)].
  - destruct out as [|y t]; [reflexivity|].
    change (y :: t = if contains y cmd then t else y :: t).
    now rewrite (Hhead y t eq_refl).
  - change (out = if contains y cmd then out else y :: out). now rewrite Hy.
Qed.

(** C5 (amended): every completed invocation returns, in one sequence, the
    accumulated buffer less at most its last line (dropped exactly when it
    contains the sentinel-echo command text) and then at most its first line
    (dropped exactly when it contains the command text), and the other
    sequence empty; lines that began with either text were never
    accumulated.  Lines inside the buffer are not examined.  The
    accumulated buffer is the one built from the lines [pre] read before
    the first line that took the sentinel branch (all the lines, if none
    did), and it leaves one possible result only. *)
Theorem execute_trims_ends self cmd ret self' :
  execute self cmd = (Ok ret, self') ->
  exists shin src pre out err,
    ret = [PFile shin; PList out; PList err] /\
    stdout self = Some src /\
    Forall (fun l => is_sentinel (normalize cmd) l = false) pre /\
    (src = map Line pre \/
     exists line rest, src = map Line pre ++ Line line :: rest /\
                       is_sentinel (normalize cmd) line = true) /\
    (trims (normalize cmd) (accumulate (normalize cmd) pre []) out /\ err = [] \/
     out = [] /\ trims (normalize cmd) (accumulate (normalize cmd) pre []) err) /\
    (forall other, trims (normalize cmd) (accumulate (normalize cmd) pre []) other ->
                   other = out ++ err) /\
    Forall (fun l => exists raw, In raw pre /\ l = clean_line raw /\
                       startswith raw (normalize cmd) = false /\
                       startswith raw echo_cmd = false)
           (accumulate (normalize cmd) pre []).
Proof.
  intros H.
  destruct (execute_ok_inv _ _ _ _ H) as (shin & src & l & rest & _ & Hout & Hl & -> & _).
  assert (Hacc : forall pre,
             Forall (fun l => exists raw, In raw pre /\ l = clean_line raw /\
                                startswith raw (normalize cmd) = false /\
                                startswith raw echo_cmd = false)
                    (accumulate (normalize cmd) pre [])).
  { intros pre. apply accumulate_Forall; [constructor|].
    apply Forall_forall. intros raw Hraw He. exists raw.
    split; [exact Hraw|]. split; [reflexivity|].
    unfold is_echo in He. now apply orb_false_elim in He. }
  assert (Huniq : forall buf other, trims (normalize cmd) buf other ->
                                    other = trim (normalize cmd) buf)
    by (intros buf other; apply trims_trim).
  destruct (read_loop_ok _ _ _ _ _ Hl)
    as [(_ & _ & _ & He & pre & Hsrc & Hpre & Hs)
       |(_ & pre & line & tok & Hsrc & Hpre & Hline & _ & _ & Hc)].
  - exists shin, src, pre, (trim (normalize cmd) (shout l)), [].
    rewrite He, Hs. repeat split; trivial.
    + now left.
    + left. split; [apply trim_trims|reflexivity].
    + intros other Ho. rewrite app_nil_r. now apply Huniq.
  - destruct (exit_status l =? 0)%Z; destruct Hc as [Ha Hb].
    + exists shin, src, pre, (trim (normalize cmd) (shout l)), [].
      rewrite Hb, Ha. repeat split; trivial.
      * right. now exists line, rest.
      * left. split; [apply trim_trims|reflexivity].
      * intros other Ho. rewrite app_nil_r. now apply Huniq.
    + exists shin, src, pre, [], (trim (normalize cmd) (sherr l)).
      rewrite Ha, Hb. repeat split; trivial.
      * right. now exists line, rest.
      * right. split; [reflexivity|apply trim_trims].
      * intros other Ho. now apply Huniq.
Qed.

Lemma execute_trims_ends_witness :
  exists shin src pre out err,
    [PFile (after_writes {| written := []; flushes := 0 |} (lit "ls"));
     PList [lit "a.txt" ++ [LF]]; PList []] = [PFile shin; PList out; PList err] /\
    stdout (session [Line (lit "# ls" ++ [LF]); Line (lit "a.txt" ++ [LF]);
                     Line echoed_prompt; Line (sentinel_line "0")]) = Some src /\
    Forall (fun l => is_sentinel (normalize (lit "ls")) l = false) pre /\
    (src = map Line pre \/
     exists line rest, src = map Line pre ++ Line line :: rest /\
                       is_sentinel (normalize (lit "ls")) line = true) /\
    (trims (normalize (lit "ls")) (accumulate (normalize (lit "ls")) pre []) out /\ err = [] \/
     out = [] /\ trims (normalize (lit "ls")) (accumulate (normalize (lit "ls")) pre []) err) /\
    (forall other,
       trims (normalize (lit "ls")) (accumulate (normalize (lit "ls")) pre []) other ->
       other = out ++ err) /\
    Forall (fun l => exists raw, In raw pre /\ l = clean_line raw /\
                       startswith raw (normalize (lit "ls")) = false /\
                       startswith raw echo_cmd = false)
           (accumulate (normalize (lit "ls")) pre []).
Proof.
  apply (execute_trims_ends
           (session [Line (lit "# ls" ++ [LF]); Line (lit "a.txt" ++ [LF]);
                     Line echoed_prompt; Line (sentinel_line "0")])
           (lit "ls")
           [PFile (after_writes {| written := []; flushes := 0 |} (lit "ls"));
            PList [lit "a.txt" ++ [LF]]; PList []]
           {| isConnected := true;
              stdin := Some (after_writes {| written := []; flushes := 0 |} (lit "ls"));
              stdout := Some [] |}).
  reflexivity.
Defined.

(** ** Sanitised lines *)

(** C6, as worded, fails: the pattern is substituted in one pass, so a
    sequence that only comes together when a match inside it is removed
    stays in the returned line. *)
Lemma escape_survives_one_pass : ~ sanitized_as_stated.
Proof.
  intros H.
  assert (Hx : execute (session [Line nested_escape; Line (sentinel_line "0")])
                       (lit "ls") =
               (Ok [PFile (after_writes {| written := []; flushes := 0 |} (lit "ls"));
                    PList [ESC :: lit "[0mhi" ++ [LF]]; PList []],
                {| isConnected := true;
                   stdin := Some (after_writes {| written := []; flushes := 0 |} (lit "ls"));
                   stdout := Some [] |})) by reflexivity.
  apply H in Hx. inversion Hx as [|? ? [Hc _] _].
  vm_compute in Hc. discriminate.
Qed.

Lemma sub_ansi_skipn k (s : str) : sub_ansi k s = sub_ansi 0 (skipn k s).
Proof.
  revert k. induction s as [|c s IH]; intros k.
  - now destruct k.
  - destruct k as [|k]; [reflexivity|]. simpl skipn. rewrite <- IH. reflexivity.
Qed.

Lemma inter_final_app (a b : str) n :
  inter_final a = Some n -> inter_final (a ++ b) = Some n.
Proof.
  revert n. induction a as [|c a IH]; intros n; simpl; [discriminate|].
  destruct (is_inter c).
  - destruct (inter_final a) as [k|]; [|discriminate].
    intros H. now rewrite (IH k eq_refl).
  - now destruct (is_final c).
Qed.

Lemma param_rest_app (a b : str) n :
  param_rest a = Some n -> param_rest (a ++ b) = Some n.
Proof.
  revert n. induction a as [|c a IH]; intros n; [discriminate|].
  change (param_rest (c :: a))
    with (if is_param c then option_map S (param_rest a) else inter_final (c :: a)).
  change (param_rest ((c :: a) ++ b))
    with (if is_param c then option_map S (param_rest (a ++ b))
          else inter_final ((c :: a) ++ b)).
  destruct (is_param c).
  - destruct (param_rest a) as [k|]; [|discriminate].
    intros H. now rewrite (IH k eq_refl).
  - apply inter_final_app.
Qed.

(** A match is decided by the characters it covers: what follows them
    does not matter. *)
Lemma match_len_app (a b : str) n :
  match_len a = Some n -> match_len (a ++ b) = Some n.
Proof.
  destruct a as [|c a]; [discriminate|]. simpl.
  destruct (Ascii.eqb c CSI).
  - destruct (param_rest a) as [k|] eqn:E; [|discriminate].
    intros H. now rewrite (param_rest_app _ b _ E).
  - destruct (Ascii.eqb c ESC); [|discriminate].
    destruct a as [|d a]; [discriminate|]. simpl.
    destruct (Ascii.eqb d "["%char); [|discriminate].
    destruct (param_rest a) as [k|] eqn:E; [|discriminate].
    intros H. now rewrite (param_rest_app _ b _ E).
Qed.

Lemma inter_final_split (s : str) n :
  inter_final s = Some n ->
  exists m rest, s = m ++ rest /\ length m = n /\ inter_final m = Some n.
Proof.
  revert n. induction s as [|c s IH]; intros n; simpl; [discriminate|].
  destruct (is_inter c) eqn:Ei.
  - destruct (inter_final s) as [k|]; [|discriminate].
    intros H. injection H as <-.
    destruct (IH k eq_refl) as (m & rest & -> & Hl & Hm).
    exists (c :: m), rest. simpl. now rewrite Ei, Hm, Hl.
  - destruct (is_final c) eqn:Ef; [|discriminate].
    intros H. injection H as <-. exists [c], s. simpl. now rewrite Ei, Ef.
Qed.

Lemma param_rest_split (s : str) n :
  param_rest s = Some n ->
  exists m rest, s = m ++ rest /\ length m = n /\ param_rest m = Some n.
Proof.
  revert n. induction s as [|c s IH]; intros n; [discriminate|].
  change (param_rest (c :: s))
    with (if is_param c then option_map S (param_rest s) else inter_final (c :: s)).
  destruct (is_param c) eqn:Ep.
  - destruct (param_rest s) as [k|]; [|discriminate].
    intros H. injection H as <-.
    destruct (IH k eq_refl) as (m & rest & -> & Hl & Hm).
    exists (c :: m), rest. simpl. now rewrite Ep, Hm, Hl.
  - intros H. destruct (inter_final_split _ _ H) as (m & rest & Hs & Hl & Hm).
    exists m, rest. repeat split; trivial.
    destruct m as [|d m]; [discriminate|].
    injection Hs as <- _.
    change (param_rest (c :: m))
      with (if is_param c then option_map S (param_rest m) else inter_final (c :: m)).
    now rewrite Ep.
Qed.

(** A match at the head of [s] covers a non-empty beginning of [s], and
    that beginning alone is a match of the same length. *)
Lemma match_len_split (s : str) n :
  match_len s = Some n ->
  exists c m rest,
    s = (c :: m) ++ rest /\ n = S (length m) /\
    match_len (c :: m) = Some (length (c :: m)).
Proof.
  destruct s as [|c s]; [discriminate|]. simpl.
  destruct (Ascii.eqb c CSI) eqn:Ec.
  - destruct (param_rest s) as [k|] eqn:E; [|discriminate].
    intros H. injection H as <-.
    destruct (param_rest_split _ _ E) as (m & rest & -> & Hl & Hm).
    exists c, m, rest. simpl. now rewrite Ec, Hm, Hl.
  - destruct (Ascii.eqb c ESC) eqn:Ee; [|discriminate].
    destruct s as [|d s]; [discriminate|].
    destruct (Ascii.eqb d "["%char) eqn:Ed; [|discriminate].
    destruct (param_rest s) as [k|] eqn:E; [|discriminate].
    intros H. injection H as <-.
    destruct (param_rest_split _ _ E) as (m & rest & -> & Hl & Hm).
    exists c, (d :: m), rest. simpl. now rewrite Ec, Ee, Ed, Hm, Hl.
Qed.

Lemma interleave_head k kept removed :
  exists tail, interleave (k :: kept) removed = k ++ tail.
Proof.
  destruct removed as [|m removed]; simpl.
  - exists []. now rewrite app_nil_r.
  - now eexists.
Qed.

Lemma interleave_cons c k kept removed :
  interleave ((c :: k) :: kept) removed = c :: interleave (k :: kept) removed.
Proof. now destruct removed. Qed.

(** One pass of the substitution cuts [s] at whole matches of the pattern
    and keeps the stretches between them, none of which holds a match. *)
Lemma sub_ansi_segments (s : str) :
  exists kept removed,
    s = interleave kept removed /\ length kept = S (length removed) /\
    Forall (fun m => match_len m = Some (length m)) removed /\
    Forall (fun k => has_ansi k = false) kept /\
    sub_ansi 0 s = concat kept.
Proof.
  remember (length s) as n eqn:En. revert s En.
  induction n as [n IH] using lt_wf_ind. intros s En.
  destruct s as [|c s].
  - exists [[]], []. repeat split; repeat constructor.
  - change (sub_ansi 0 (c :: s))
      with (match match_len (c :: s) with
            | Some (S k) => sub_ansi k s
            | _ => c :: sub_ansi 0 s
            end).
    destruct (match_len (c :: s)) as [j|] eqn:Em.
    + destruct (match_len_split _ _ Em) as (c' & m & rest & Hs & -> & Hm).
      injection Hs as <- ->.
      destruct (IH (length rest)) with (s := rest) as (kept & removed & Hr & Hl & Hrem & Hk & Hsub);
        [subst n; simpl; rewrite length_app; lia|reflexivity|].
      exists ([] :: kept), ((c :: m) :: removed). repeat split.
      * simpl. now rewrite <- Hr.
      * simpl. now rewrite Hl.
      * now constructor.
      * now constructor.
      * rewrite sub_ansi_skipn, skipn_app, skipn_all, Nat.sub_diag. simpl. exact Hsub.
    + destruct (IH (length s)) with (s := s) as (kept & removed & Hr & Hl & Hrem & Hk & Hsub);
        [subst n; simpl; lia|reflexivity|].
      destruct kept as [|k kept]; [discriminate|].
      exists ((c :: k) :: kept), removed. repeat split; trivial.
      * rewrite interleave_cons. f_equal. exact Hr.
      * inversion Hk as [|? ? Hk0 Hks]. constructor; [|exact Hks].
        change (has_ansi (c :: k))
          with (match match_len (c :: k) with Some _ => true | None => has_ansi k end).
        destruct (match_len (c :: k)) as [j|] eqn:Ek; [|exact Hk0].
        destruct (interleave_head k kept removed) as [tail Ht].
        pose proof (match_len_app (c :: k) tail j Ek) as Hc.
        change ((c :: k) ++ tail) with (c :: (k ++ tail)) in Hc.
        rewrite <- Ht, <- Hr in Hc. congruence.
      * simpl. now rewrite Hsub.
Qed.

(** C6 (amended): every line in both returned sequences contains no
    backspace and no carriage return, and is a line read from the channel
    from which whole escape sequences were cut out in one left-to-right
    pass, and then the backspaces and carriage returns removed.  No stretch
    of text between two cuts holds an escape sequence: one can remain in a
    returned line only across a cut, where the text around a removed
    sequence was joined, or where a backspace or carriage return was
    removed. *)
Theorem execute_sanitizes self cmd src shin out err self' :
  stdout self = Some src ->
  execute self cmd = (Ok [PFile shin; PList out; PList err], self') ->
  Forall (fun l => ~ In BS l /\ ~ In CR l /\
                   exists raw kept removed,
                     In (Line raw) src /\ l = clean_line raw /\
                     raw = interleave kept removed /\
                     length kept = S (length removed) /\
                     Forall (fun m => match_len m = Some (length m)) removed /\
                     Forall (fun k => has_ansi k = false) kept /\
                     l = remove_char CR (remove_char BS (concat kept)))
         (out ++ err).
Proof.
  intros Hout H.
  destruct (execute_ok_inv _ _ _ _ H) as (f & src' & l & rest & _ & Hout' & Hl & Hret & _).
  rewrite Hout in Hout'. injection Hout' as <-.
  injection Hret as _ -> ->.
  set (P := fun l0 : str =>
              ~ In BS l0 /\ ~ In CR l0 /\
              exists raw kept removed,
                In (Line raw) src /\ l0 = clean_line raw /\
                raw = interleave kept removed /\
                length kept = S (length removed) /\
                Forall (fun m => match_len m = Some (length m)) removed /\
                Forall (fun k => has_ansi k = false) kept /\
                l0 = remove_char CR (remove_char BS (concat kept))).
  assert (Hacc : forall pre, (forall raw, In raw pre -> In (Line raw) src) ->
                             Forall P (accumulate (normalize cmd) pre [])).
  { intros pre Hin. apply accumulate_Forall; [constructor|].
    apply Forall_forall. intros raw Hraw _.
    destruct (clean_line_no_control raw) as [Hb Hc].
    destruct (sub_ansi_segments raw) as (kept & removed & Hr & Hlen & Hrem & Hk & Hsub).
    split; [exact Hb|]. split; [exact Hc|].
    exists raw, kept, removed. repeat split; trivial; [now apply Hin|].
    unfold clean_line. now rewrite Hsub. }
  assert (Htrim : forall buf, Forall P buf -> Forall P (trim (normalize cmd) buf)).
  { intros buf Hb. apply Forall_forall. intros x Hx.
    eapply Forall_forall; [exact Hb|]. eapply trims_incl; [apply trim_trims|exact Hx]. }
  apply Forall_app.
  destruct (read_loop_ok _ _ _ _ _ Hl)
    as [(_ & _ & _ & He & pre & Hsrc & _ & Hs)
       |(_ & pre & line & tok & Hsrc & _ & _ & _ & _ & Hc)].
  - rewrite He, Hs. split; [|constructor]. apply Htrim, Hacc.
    intros raw Hraw. rewrite Hsrc. now apply in_map.
  - assert (Hin : forall raw, In raw pre -> In (Line raw) src).
    { intros raw Hraw. rewrite Hsrc. apply in_or_app. left. now apply in_map. }
    destruct (exit_status l =? 0)%Z; destruct Hc as [-> ->]; split;
      try constructor; apply Htrim, Hacc, Hin.
Qed.

Lemma execute_sanitizes_witness :
  Forall (fun l => ~ In BS l /\ ~ In CR l /\
                   exists raw kept removed,
                     In (Line raw)
                       [Line (ESC :: lit "[1;31mred" ++ [ESC] ++ lit "[0m" ++ [CR; LF]);
                        Line (sentinel_line "0")] /\
                     l = clean_line raw /\
                     raw = interleave kept removed /\
                     length kept = S (length removed) /\
                     Forall (fun m => match_len m = Some (length m)) removed /\
                     Forall (fun k => has_ansi k = false) kept /\
                     l = remove_char CR (remove_char BS (concat kept)))
         ([lit "red" ++ [LF]] ++ []).
Proof.
  apply (execute_sanitizes
           (session [Line (ESC :: lit "[1;31mred" ++ [ESC] ++ lit "[0m" ++ [CR; LF]);
                     Line (sentinel_line "0")])
           (lit "ls")
           [Line (ESC :: lit "[1;31mred" ++ [ESC] ++ lit "[0m" ++ [CR; LF]);
            Line (sentinel_line "0")]
           (after_writes {| written := []; flushes := 0 |} (lit "ls"))
           [lit "red" ++ [LF]] []
           {| isConnected := true;
              stdin := Some (after_writes {| written := []; flushes := 0 |} (lit "ls"));
              stdout := Some [] |}).
  - reflexivity.
  - reflexivity.
Defined.

(** ** The channel ends before the sentinel *)




(** ** Construction *)

(** C8, as worded, fails: the flag is set as soon as authentication
    succeeds, before the shell is invoked; when the invocation then raises,
    the object is left with [isConnected] true and no streams. *)
Lemma connected_before_shell : ~ connected_after_shell_as_stated.
Proof.
  intros H.
  destruct (H shell_refused eq_refl) as [ch Hc]. discriminate.
Qed.

(** C8 (amended): the constructor sets [isConnected] to true exactly when
    one of the two authentication attempts succeeds, before it invokes the
    shell.  If the constructor returns normally, [isConnected] is true
    exactly when the shell was invoked and both streams exist; if the shell
    invocation raises, that exception leaves the constructor and the object
    keeps [isConnected] true with no streams. *)
Theorem init_connected env :
  isConnected (fst (init env)) = connect_ok env || auth_none_ok env /\
  (snd (init env) = None ->
   (isConnected (fst (init env)) = true <->
    exists channel, invoke_shell env = Ok channel /\
      stdin (fst (init env)) = Some {| written := []; flushes := 0 |} /\
      stdout (fst (init env)) = Some channel)) /\
  (forall e, snd (init env) = Some e <->
     (connect_ok env || auth_none_ok env = true /\ invoke_shell env = Raise e)) /\
  (forall e, snd (init env) = Some e ->
     fst (init env) = {| isConnected := true; stdin := None; stdout := None |}).
Proof.
  unfold init.
  destruct (connect_ok env || auth_none_ok env) eqn:Ea;
    destruct (invoke_shell env) as [ch|e0] eqn:Ei; simpl;
    (split; [reflexivity|]); (split; [|split]).
  - intros _. split; [intros _; now exists ch|reflexivity].
  - intros e. split; [discriminate|intros [_ Hc]; discriminate].
  - discriminate.
  - discriminate.
  - intros e. split.
    + intros H. injection H as <-. auto.
    + intros [_ Hc]. now injection Hc as <-.
  - reflexivity.
  - intros _. split; [discriminate|intros (c & _ & Hc & _); discriminate].
  - intros e. split; [discriminate|intros [Hc _]; discriminate].
  - discriminate.
  - intros _. split; [discriminate|intros (c & Hc & _); discriminate].
  - intros e. split; [discriminate|intros [Hc _]; discriminate].
  - discriminate.
Qed.

Lemma init_connected_witness :
  isConnected (fst (init shell_refused)) = true /\
  snd (init shell_refused) = Some (Exn "SSHException") /\
  fst (init shell_refused) = {| isConnected := true; stdin := None; stdout := None |}.
Proof.
  destruct (init_connected shell_refused) as (H1 & _ & H3 & H4).
  split; [exact H1|]. split; [reflexivity|].
  apply (H4 (Exn "SSHException")). reflexivity.
Defined.

(** ** The returned tuple *)

(** C9, as worded, fails: the tuple that execute returns has three
    components, the first being the input sink. *)
Lemma execute_returns_three : ~ returns_pair_as_stated.
Proof.
  intros H.
  destruct (H (session []) (lit "true") _ _ eq_refl) as (out & err & Hx).
  discriminate.
Qed.

(** C9 (amended): for every command, a successful execute returns exactly a
    triple: the session's input sink, then the standard-output lines, then
    the error lines. *)
Theorem execute_returns_triple self cmd ret self' :
  execute self cmd = (Ok ret, self') ->
  exists shin out err,
    ret = [PFile shin; PList out; PList err] /\ stdin self' = Some shin.
Proof.
  intros H.
  destruct (execute_ok_inv _ _ _ _ H) as (sk & src & l & rest & _ & _ & _ & -> & ->).
  now eexists _, _, _.
Qed.

Lemma execute_returns_triple_witness :
  exists shin out err,
    [PFile (after_writes {| written := []; flushes := 0 |} (lit "true"));
     PList []; PList []] = [PFile shin; PList out; PList err] /\
    stdin {| isConnected := true;
             stdin := Some (after_writes {| written := []; flushes := 0 |} (lit "true"));
             stdout := Some [] |} = Some shin.
Proof.
  apply (execute_returns_triple
           (session [Line (sentinel_line "0")]) (lit "true")
           [PFile (after_writes {| written := []; flushes := 0 |} (lit "true"));
            PList []; PList []]
           {| isConnected := true;
              stdin := Some (after_writes {| written := []; flushes := 0 |} (lit "true"));
              stdout := Some [] |}).
  reflexivity.
Defined.

(** ** The empty command *)

Lemma unbounded_empty_cmd src fuel i sh :
  read_loop_unbounded [] src fuel i sh = None.
Proof.
  revert i sh. induction fuel as [|fuel IH]; intros i sh; [reflexivity|].
  simpl. unfold loop_body, is_echo. rewrite startswith_nil. apply IH.
Qed.

(** C10: when the command normalises to the empty string, every line
    passes the echo test, so no line takes the sentinel branch and no exit
    status is parsed; the loop ends only when the source is exhausted (or a
    read raises), execute then returns two empty sequences with the exit
    status still 0; over a source that never ends the loop is still running
    after any number of lines. *)
Theorem empty_command_loop cmd :
  normalize cmd = [] ->
  (forall line,
     is_echo (normalize cmd) line = true /\ is_sentinel (normalize cmd) line = false) /\
  (forall src l rest,
     read_loop (normalize cmd) src [] = (Ok l, rest) ->
     l = {| shout := []; sherr := []; exit_status := 0; broke := false |} /\
     rest = [] /\ exists lines, src = map Line lines) /\
  (forall src e rest,
     read_loop (normalize cmd) src [] = (Raise e, rest) ->
     exists lines, src = map Line lines ++ Fails e :: rest) /\
  (forall self sk lines,
     stdin self = Some sk -> stdout self = Some (map Line lines) ->
     execute self cmd =
     (Ok [PFile (after_writes sk cmd); PList []; PList []],
      {| isConnected := isConnected self;
         stdin := Some (after_writes sk cmd);
         stdout := Some [] |})) /\
  (forall src fuel i sh,
     read_loop_unbounded (normalize cmd) src fuel i sh = None).
Proof.
  intros Hn.
  assert (He : forall line, is_echo [] line = true).
  { intros line. unfold is_echo. now rewrite startswith_nil. }
  assert (Hlines : forall lines,
             read_loop [] (map Line lines) [] =
             (Ok {| shout := []; sherr := []; exit_status := 0; broke := false |}, [])).
  { induction lines as [|line lines IH]; [reflexivity|].
    simpl. unfold loop_body. now rewrite He. }
  split; [|split; [|split; [|split]]].
  - intros line. rewrite Hn. unfold is_sentinel. now rewrite He.
  - intros src l rest H. rewrite Hn in H.
    destruct (read_loop_empty_cmd src [])
      as [(l' & Hl & Hb & Hx & Her & Hs)|(pre & e & rest' & _ & Hr)];
      [|rewrite Hr in H; discriminate].
    rewrite Hl in H. injection H as <- <-.
    destruct (read_loop_ok _ _ _ _ _ Hl)
      as [(_ & _ & _ & _ & pre & Hsrc & _)|(Hb' & _)]; [|congruence].
    split; [|split; [reflexivity|now exists pre]].
    destruct l' as [so se st b]. simpl in Hb, Hx, Her, Hs.
    assert (Hso : so = []) by (rewrite Hs; now destruct src).
    now rewrite Hb, Hx, Her, Hso.
  - intros src e rest H. rewrite Hn in H.
    destruct (read_loop_empty_cmd src [])
      as [(l' & Hl & _)|(pre & e' & rest' & Hsrc & Hr)];
      [rewrite Hl in H; discriminate|].
    rewrite Hr in H. injection H as He' Hr'. exists pre. now rewrite <- He', <- Hr'.
  - intros self sk lines Hin Hout.
    rewrite (execute_working _ _ _ Hin). unfold receive, after_writes.
    now rewrite Hout, Hn, Hlines.
  - intros src fuel i sh. rewrite Hn. apply unbounded_empty_cmd.
Qed.

Lemma empty_command_loop_witness :
  (forall line,
     is_echo (normalize [LF; LF]) line = true /\
     is_sentinel (normalize [LF; LF]) line = false) /\
  (forall src l rest,
     read_loop (normalize [LF; LF]) src [] = (Ok l, rest) ->
     l = {| shout := []; sherr := []; exit_status := 0; broke := false |} /\
     rest = [] /\ exists lines, src = map Line lines) /\
  (forall src e rest,
     read_loop (normalize [LF; LF]) src [] = (Raise e, rest) ->
     exists lines, src = map Line lines ++ Fails e :: rest) /\
  (forall self sk lines,
     stdin self = Some sk -> stdout self = Some (map Line lines) ->
     execute self [LF; LF] =
     (Ok [PFile (after_writes sk [LF; LF]); PList []; PList []],
      {| isConnected := isConnected self;
         stdin := Some (after_writes sk [LF; LF]);
         stdout := Some [] |})) /\
  (forall src fuel i sh,
     read_loop_unbounded (normalize [LF; LF]) src fuel i sh = None).
Proof.
  apply (empty_command_loop [LF; LF]). reflexivity.
Defined.

(** ** Further properties of execute *)

Lemma execute_at_sentinel self cmd sk src pre line rest tok status :
  stdin self = Some sk -> stdout self = Some src ->
  reaches_sentinel (normalize cmd) src pre line rest ->
  nth_error (rsplit1 line) 1 = Some tok -> py_int tok = Some status ->
  execute self cmd =
  (Ok [PFile (after_writes sk cmd);
       PList (if (status =? 0)%Z
              then trim (normalize cmd) (accumulate (normalize cmd) pre []) else []);
       PList (if (status =? 0)%Z
              then [] else trim (normalize cmd) (accumulate (normalize cmd) pre []))],
   {| isConnected := isConnected self;
      stdin := Some (after_writes sk cmd);
      stdout := Some rest |}).
Proof.
  intros Hin Hout (-> & Hpre & Hs) Ht Hp.
  rewrite (execute_working _ _ _ Hin). unfold receive.
  rewrite Hout, (read_loop_prefix _ _ _ _ Hpre).
  simpl read_loop. rewrite (sentinel_body _ _ _ _ Hs Ht), Hp.
  destruct (status =? 0)%Z; reflexivity.
Qed.

Lemma read_loop_raise_cases cmd src sh e rest :
  read_loop cmd src sh = (Raise e, rest) ->
  exists pre, Forall (fun x => is_sentinel cmd x = false) pre /\
    (src = map Line pre ++ Fails e :: rest \/
     exists line tok, src = map Line pre ++ Line line :: rest /\
       is_sentinel cmd line = true /\
       nth_error (rsplit1 line) 1 = Some tok /\ py_int tok = None /\
       e = ValueError).
Proof.
  revert sh. induction src as [|r src IH]; intros sh H; simpl in H; [discriminate|].
  destruct r as [line|e'].
  - destruct (is_sentinel cmd line) eqn:Es.
    + exists []. split; [constructor|]. right.
      assert (Hf : startswith line finish = true).
      { unfold is_sentinel in Es. now apply andb_prop in Es as [_ Hf]. }
      destruct (rsplit1_sentinel line Hf) as (_ & tok & _ & _ & Ht & _).
      rewrite (sentinel_body _ _ _ _ Es Ht) in H.
      exists line, tok. destruct (py_int tok) as [st|].
      * destruct (st =? 0)%Z; discriminate.
      * injection H as <- <-. auto.
    + rewrite (is_sentinel_false_body _ _ _ Es) in H.
      destruct (IH _ H) as (pre & Hpre & Hcase).
      exists (line :: pre). split; [now constructor|].
      destruct Hcase as [->|(line' & tok & -> & Hrest)]; [now left|].
      right. now exists line', tok.
  - injection H as <- <-. exists []. split; [constructor|]. now left.
Qed.

Lemma receive_exceptions self cmd shin e self' :
  receive self cmd shin = (Raise e, self') ->
  (e = AttributeError /\ stdout self = None) \/
  (exists src, stdout self = Some src /\ In (Fails e) src) \/
  (e = ValueError /\
   exists src line tok,
     stdout self = Some src /\ In (Line line) src /\
     is_sentinel cmd line = true /\ nth_error (rsplit1 line) 1 = Some tok).
Proof.
  unfold receive. destruct (stdout self) as [src|].
  2:{ intros H. injection H as <- _. left. auto. }
  destruct (read_loop cmd src []) as [[l|e0] rest] eqn:El; [discriminate|].
  intros H. injection H as -> _. right.
  destruct (read_loop_raise_cases _ _ _ _ _ El)
    as (pre & _ & [->|(line & tok & -> & Hs & Ht & Hp & ->)]).
  - left. eexists. split; [reflexivity|]. apply in_or_app. right. now left.
  - right. split; [reflexivity|]. exists (map Line pre ++ Line line :: rest), line, tok.
    repeat split; trivial. apply in_or_app. right. now left.
Qed.

(** The exceptions that can leave execute: AttributeError when a stream
    attribute is missing, the exception of a write or flush on a file whose
    channel has closed, the exception of a read that fails, or the
    ValueError that [int] raises on the last field of a sentinel line.
    That field always exists: taking index 1 of the split sentinel line
    never raises IndexError. *)
Theorem execute_exceptions self cmd e self' :
  execute self cmd = (Raise e, self') ->
  (e = AttributeError /\ (stdin self = None \/ stdout self = None)) \/
  (exists sk good, stdin self = Some (Failing sk good e) /\ good < 3) \/
  (exists src, stdout self = Some src /\ In (Fails e) src) \/
  (e = ValueError /\
   exists src line tok,
     stdout self = Some src /\ In (Line line) src /\
     is_sentinel (normalize cmd) line = true /\
     nth_error (rsplit1 line) 1 = Some tok).
Proof.
  assert (Hrec : forall shin,
             receive self (normalize cmd) shin = (Raise e, self') ->
             (e = AttributeError /\ (stdin self = None \/ stdout self = None)) \/
             (exists sk good, stdin self = Some (Failing sk good e) /\ good < 3) \/
             (exists src, stdout self = Some src /\ In (Fails e) src) \/
             (e = ValueError /\
              exists src line tok,
                stdout self = Some src /\ In (Line line) src /\
                is_sentinel (normalize cmd) line = true /\
                nth_error (rsplit1 line) 1 = Some tok)).
  { intros shin H. apply receive_exceptions in H as [[-> Hn]|[H|H]]; auto. }
  unfold execute. destruct (stdin self) as [f|] eqn:Ef.
  2:{ intros H. injection H as <- _. left. auto. }
  destruct f as [sk|sk good e0].
  - apply Hrec.
  - destruct good as [|[|[|good]]].
    + intros H. injection H as <- _. right. left. exists sk, 0. split; [reflexivity|lia].
    + intros H. injection H as <- _. right. left. exists sk, 1. split; [reflexivity|lia].
    + intros H. injection H as <- _. right. left. exists sk, 2. split; [reflexivity|lia].
    + apply Hrec.
Qed.

Lemma execute_exceptions_witness :
  (Exn "OSError" = AttributeError /\
   (stdin {| isConnected := true;
             stdin := Some (Failing {| written := []; flushes := 0 |} 1 (Exn "OSError"));
             stdout := Some [] |} = None \/
    stdout {| isConnected := true;
              stdin := Some (Failing {| written := []; flushes := 0 |} 1 (Exn "OSError"));
              stdout := Some [] |} = None)) \/
  (exists sk good,
     stdin {| isConnected := true;
              stdin := Some (Failing {| written := []; flushes := 0 |} 1 (Exn "OSError"));
              stdout := Some [] |} = Some (Failing sk good (Exn "OSError")) /\ good < 3) \/
  (exists src,
     stdout {| isConnected := true;
               stdin := Some (Failing {| written := []; flushes := 0 |} 1 (Exn "OSError"));
               stdout := Some [] |} = Some src /\ In (Fails (Exn "OSError")) src) \/
  (Exn "OSError" = ValueError /\
   exists src line tok,
     stdout {| isConnected := true;
               stdin := Some (Failing {| written := []; flushes := 0 |} 1 (Exn "OSError"));
               stdout := Some [] |} = Some src /\ In (Line line) src /\
     is_sentinel (normalize (lit "ls")) line = true /\
     nth_error (rsplit1 line) 1 = Some tok).
Proof.
  apply (execute_exceptions
           {| isConnected := true;
              stdin := Some (Failing {| written := []; flushes := 0 |} 1 (Exn "OSError"));
              stdout := Some [] |}
           (lit "ls") (Exn "OSError")
           {| isConnected := true;
              stdin := Some (Failing (wrote {| written := []; flushes := 0 |}
                                        (normalize (lit "ls") ++ [LF])) 0 (Exn "OSError"));
              stdout := Some [] |}).
  reflexivity.
Defined.

(** Two calls in a row do not interleave: the second call reads on from
    where the first stopped, so its result is made of the lines between the
    two sentinel lines only, and the sink holds the four writes in order. *)
Theorem execute_sequential self cmd1 cmd2 sk src
    pre1 line1 rest1 tok1 status1 pre2 line2 rest2 tok2 status2 :
  stdin self = Some sk -> stdout self = Some src ->
  reaches_sentinel (normalize cmd1) src pre1 line1 rest1 ->
  nth_error (rsplit1 line1) 1 = Some tok1 -> py_int tok1 = Some status1 ->
  reaches_sentinel (normalize cmd2) rest1 pre2 line2 rest2 ->
  nth_error (rsplit1 line2) 1 = Some tok2 -> py_int tok2 = Some status2 ->
  exists shin : sink,
    execute (snd (execute self cmd1)) cmd2 =
    (Ok [PFile shin;
         PList (if (status2 =? 0)%Z
                then trim (normalize cmd2) (accumulate (normalize cmd2) pre2 []) else []);
         PList (if (status2 =? 0)%Z
                then [] else trim (normalize cmd2) (accumulate (normalize cmd2) pre2 []))],
     {| isConnected := isConnected self; stdin := Some shin; stdout := Some rest2 |}) /\
    written shin =
    written sk ++ [normalize cmd1 ++ [LF]; echo_cmd ++ [LF];
                   normalize cmd2 ++ [LF]; echo_cmd ++ [LF]] /\
    flushes shin = S (S (flushes sk)).
Proof.
  intros Hin Hout H1 Ht1 Hp1 H2 Ht2 Hp2.
  rewrite (execute_at_sentinel _ _ _ _ _ _ _ _ _ Hin Hout H1 Ht1 Hp1). simpl snd.
  exists (after_writes (after_writes sk cmd1) cmd2). split; [|split].
  - exact (execute_at_sentinel
             {| isConnected := isConnected self;
                stdin := Some (after_writes sk cmd1);
                stdout := Some rest1 |}
             cmd2 (after_writes sk cmd1) rest1 pre2 line2 rest2 tok2 status2
             eq_refl eq_refl H2 Ht2 Hp2).
  - unfold after_writes. simpl. now rewrite <- !app_assoc.
  - reflexivity.
Qed.

Lemma execute_sequential_witness :
  exists shin : sink,
    execute (snd (execute (session [Line (lit "A" ++ [LF]); Line (sentinel_line "0");
                                    Line (lit "B" ++ [LF]); Line (sentinel_line "0")])
                          (lit "echo A"))) (lit "echo B") =
    (Ok [PFile shin;
         PList (if (0 =? 0)%Z
                then trim (normalize (lit "echo B"))
                       (accumulate (normalize (lit "echo B")) [lit "B" ++ [LF]] [])
                else []);
         PList (if (0 =? 0)%Z
                then []
                else trim (normalize (lit "echo B"))
                       (accumulate (normalize (lit "echo B")) [lit "B" ++ [LF]] []))],
     {| isConnected := true; stdin := Some shin; stdout := Some [] |}) /\
    written shin =
    [] ++ [normalize (lit "echo A") ++ [LF]; echo_cmd ++ [LF];
           normalize (lit "echo B") ++ [LF]; echo_cmd ++ [LF]] /\
    flushes shin = 2.
Proof.
  apply (execute_sequential
           (session [Line (lit "A" ++ [LF]); Line (sentinel_line "0");
                     Line (lit "B" ++ [LF]); Line (sentinel_line "0")])
           (lit "echo A") (lit "echo B") {| written := []; flushes := 0 |}
           [Line (lit "A" ++ [LF]); Line (sentinel_line "0");
            Line (lit "B" ++ [LF]); Line (sentinel_line "0")]
           [lit "A" ++ [LF]] (sentinel_line "0")
           [Line (lit "B" ++ [LF]); Line (sentinel_line "0")] (lit "0") 0%Z
           [lit "B" ++ [LF]] (sentinel_line "0") [] (lit "0") 0%Z).
  - reflexivity.
  - reflexivity.
  - split; [reflexivity|]. split; [|reflexivity]. repeat constructor.
  - reflexivity.
  - reflexivity.
  - split; [reflexivity|]. split; [|reflexivity]. repeat constructor.
  - reflexivity.
  - reflexivity.
Defined.

Lemma startswith_trans (s p q : str) :
  startswith s p = true -> startswith p q = true -> startswith s q = true.
Proof.
  revert s p. induction q as [|c q IH]; intros s p Hsp Hpq; [apply startswith_nil|].
  destruct p as [|d p]; [discriminate|].
  destruct s as [|e s]; [discriminate|].
  simpl in *. apply andb_prop in Hsp as [H1 H2]. apply andb_prop in Hpq as [H3 H4].
  apply Ascii.eqb_eq in H1 as ->. rewrite H3. simpl. now apply (IH s p).
Qed.

Lemma unbounded_never_sentinel cmd src :
  (forall line, is_sentinel cmd line = false) ->
  forall fuel i sh, read_loop_unbounded cmd src fuel i sh = None.
Proof.
  intros Hns. induction fuel as [|fuel IH]; intros i sh; [reflexivity|].
  simpl. rewrite (is_sentinel_false_body _ _ _ (Hns (src i))). apply IH.
Qed.

(** A command that is a beginning of the sentinel phrase (e, en, end, ...)
    makes every sentinel line pass for an echo of the command: no line ends
    the loop, execute returns only when the source is exhausted, with an
    empty error sequence, and over a source that never ends it is still
    reading after any number of lines. *)
Theorem sentinel_prefix_command cmd :
  startswith finish (normalize cmd) = true ->
  (forall line, is_sentinel (normalize cmd) line = false) /\
  (forall self sk lines,
     stdin self = Some sk -> stdout self = Some (map Line lines) ->
     execute self cmd =
     (Ok [PFile (after_writes sk cmd);
          PList (trim (normalize cmd) (accumulate (normalize cmd) lines []));
          PList []],
      {| isConnected := isConnected self;
         stdin := Some (after_writes sk cmd);
         stdout := Some [] |})) /\
  (forall src fuel i sh,
     read_loop_unbounded (normalize cmd) src fuel i sh = None).
Proof.
  intros Hp.
  assert (Hns : forall line, is_sentinel (normalize cmd) line = false).
  { intros line. unfold is_sentinel, is_echo.
    destruct (startswith line finish) eqn:Ef; [|apply andb_false_r].
    now rewrite (startswith_trans _ _ _ Ef Hp). }
  split; [exact Hns|]. split.
  - intros self sk lines Hin Hout.
    rewrite (execute_working _ _ _ Hin). unfold receive. rewrite Hout.
    rewrite <- (app_nil_r (map Line lines)), read_loop_prefix; [reflexivity|].
    apply Forall_forall. intros line _. apply Hns.
  - intros src. now apply unbounded_never_sentinel.
Qed.

Lemma sentinel_prefix_command_witness :
  (forall line, is_sentinel (normalize (lit "end")) line = false) /\
  (forall self sk lines,
     stdin self = Some sk -> stdout self = Some (map Line lines) ->
     execute self (lit "end") =
     (Ok [PFile (after_writes sk (lit "end"));
          PList (trim (normalize (lit "end")) (accumulate (normalize (lit "end")) lines []));
          PList []],
      {| isConnected := isConnected self;
         stdin := Some (after_writes sk (lit "end"));
         stdout := Some [] |})) /\
  (forall src fuel i sh,
     read_loop_unbounded (normalize (lit "end")) src fuel i sh = None).
Proof.
  apply (sentinel_prefix_command (lit "end")). reflexivity.
Defined.

Lemma accumulate_app cmd a b sh :
  accumulate cmd (a ++ b) sh = accumulate cmd b (accumulate cmd a sh).
Proof.
  revert sh. induction a as [|line a IH]; intros sh; [reflexivity|].
  simpl. destruct (is_echo cmd line); apply IH.
Qed.

Lemma accumulate_output cmd lines sh :
  Forall (fun l => is_echo cmd l = false) lines ->
  accumulate cmd lines sh = sh ++ map clean_line lines.
Proof.
  intros H. revert sh. induction H as [|line lines Hl _ IH]; intros sh; simpl.
  - now rewrite app_nil_r.
  - rewrite Hl, IH, <- app_assoc. reflexivity.
Qed.

(** Whatever was read before the last echo line is discarded: when the
    sentinel line comes, the buffer holds exactly the cleaned lines that
    followed the last line beginning with the command text or with the
    sentinel-echo command text, in order. *)
Theorem output_before_echo_discarded self cmd sk before echoed after line rest tok status :
  stdin self = Some sk ->
  stdout self = Some (map Line (before ++ echoed :: after) ++ Line line :: rest) ->
  Forall (fun l => is_sentinel (normalize cmd) l = false) before ->
  is_echo (normalize cmd) echoed = true ->
  Forall (fun l => is_echo (normalize cmd) l = false) after ->
  Forall (fun l => startswith l finish = false) after ->
  is_sentinel (normalize cmd) line = true ->
  nth_error (rsplit1 line) 1 = Some tok -> py_int tok = Some status ->
  fst (execute self cmd) =
  Ok [PFile (after_writes sk cmd);
      PList (if (status =? 0)%Z then trim (normalize cmd) (map clean_line after) else []);
      PList (if (status =? 0)%Z then [] else trim (normalize cmd) (map clean_line after))].
Proof.
  intros Hin Hout Hb He Ha Hf Hs Ht Hp.
  assert (Hacc : accumulate (normalize cmd) (before ++ echoed :: after) [] =
                 map clean_line after).
  { rewrite accumulate_app. simpl. rewrite He. now rewrite accumulate_output. }
  assert (Hr : reaches_sentinel (normalize cmd)
                 (map Line (before ++ echoed :: after) ++ Line line :: rest)
                 (before ++ echoed :: after) line rest).
  { split; [reflexivity|]. split; [|exact Hs].
    apply Forall_app. split; [exact Hb|]. constructor.
    - unfold is_sentinel. now rewrite He.
    - rewrite Forall_forall in *. intros l Hl. unfold is_sentinel.
      rewrite (Hf l Hl). apply andb_false_r. }
  rewrite (execute_at_sentinel _ _ _ _ _ _ _ _ _ Hin Hout Hr Ht Hp).
  simpl fst. now rewrite Hacc.
Qed.

Lemma output_before_echo_discarded_witness :
  fst (execute (session (map Line ([lit "stale" ++ [LF]] ++ (lit "ls" ++ [CR; LF])
                                     :: [lit "a.txt" ++ [CR; LF]])
                         ++ Line (sentinel_line "0") :: []))
               (lit "ls")) =
  Ok [PFile (after_writes {| written := []; flushes := 0 |} (lit "ls"));
      PList (if (0 =? 0)%Z
             then trim (normalize (lit "ls")) (map clean_line [lit "a.txt" ++ [CR; LF]])
             else []);
      PList (if (0 =? 0)%Z
             then []
             else trim (normalize (lit "ls")) (map clean_line [lit "a.txt" ++ [CR; LF]]))].
Proof.
  apply (output_before_echo_discarded
           (session (map Line ([lit "stale" ++ [LF]] ++ (lit "ls" ++ [CR; LF])
                                 :: [lit "a.txt" ++ [CR; LF]])
                     ++ Line (sentinel_line "0") :: []))
           (lit "ls") {| written := []; flushes := 0 |}
           [lit "stale" ++ [LF]] (lit "ls" ++ [CR; LF]) [lit "a.txt" ++ [CR; LF]]
           (sentinel_line "0") [] (lit "0") 0%Z).
  - reflexivity.
  - reflexivity.
  - repeat constructor.
  - reflexivity.
  - repeat constructor.
  - repeat constructor.
  - reflexivity.
  - reflexivity.
  - reflexivity.
Defined.

(** ** Cleaning well-formed terminal output *)

Lemma in_range_disjoint lo hi lo' hi' c :
  hi < lo' -> in_range lo hi c = true -> in_range lo' hi' c = false.
Proof.
  unfold in_range. intros Hlt H. apply andb_prop in H as [_ H2].
  apply Nat.leb_le in H2. apply andb_false_iff. left. apply Nat.leb_gt. lia.
Qed.

Lemma in_range_disjoint' lo hi lo' hi' c :
  hi' < lo -> in_range lo hi c = true -> in_range lo' hi' c = false.
Proof.
  unfold in_range. intros Hlt H. apply andb_prop in H as [H1 _].
  apply Nat.leb_le in H1. apply andb_false_iff. right. apply Nat.leb_gt. lia.
Qed.

Lemma inter_final_wellformed inters final (s : str) :
  forallb is_inter inters = true -> is_final final = true ->
  inter_final (inters ++ final :: s) = Some (length inters + 1).
Proof.
  intros Hi Hf. induction inters as [|c inters IH]; simpl.
  - assert (Hx : is_inter final = false)
      by (apply (in_range_disjoint' 64 126 32 47); [lia|exact Hf]).
    now rewrite Hx, Hf.
  - simpl in Hi. apply andb_prop in Hi as [Hc Hi]. rewrite Hc, (IH Hi). reflexivity.
Qed.

Lemma param_rest_wellformed params inters final (s : str) :
  forallb is_param params = true -> forallb is_inter inters = true ->
  is_final final = true ->
  param_rest (params ++ inters ++ final :: s) = Some (length params + length inters + 1).
Proof.
  intros Hp Hi Hf. induction params as [|c params IH].
  - change (param_rest (inters ++ final :: s) = Some (length inters + 1)).
    rewrite <- (inter_final_wellformed inters final s Hi Hf).
    destruct inters as [|x inters]; simpl.
    + assert (Hx : is_param final = false)
        by (apply (in_range_disjoint' 64 126 48 63); [lia|exact Hf]).
      now rewrite Hx.
    + simpl in Hi. apply andb_prop in Hi as [Hx _].
      assert (Hx' : is_param x = false)
        by (apply (in_range_disjoint 32 47 48 63); [lia|exact Hx]).
      now rewrite Hx'.
  - simpl in Hp. apply andb_prop in Hp as [Hc Hp]. simpl. rewrite Hc, (IH Hp). reflexivity.
Qed.

Lemma match_len_control eight_bit params inters final (s : str) :
  wellformed (Control eight_bit params inters final) = true ->
  match_len (render (Control eight_bit params inters final) ++ s) =
  Some (length (render (Control eight_bit params inters final))).
Proof.
  simpl. intros H. apply andb_prop in H as [H Hf]. apply andb_prop in H as [Hp Hi].
  pose proof (param_rest_wellformed params inters final s Hp Hi Hf) as Hm.
  assert (Hl : length (params ++ inters ++ [final]) = length params + length inters + 1)
    by (rewrite !length_app; simpl; lia).
  assert (Hs : (params ++ inters ++ [final]) ++ s = params ++ inters ++ final :: s)
    by (now rewrite <- !app_assoc).
  destruct eight_bit.
  - change (match_len (CSI :: (params ++ inters ++ [final]) ++ s) =
            Some (S (length (params ++ inters ++ [final])))).
    rewrite Hs, Hl. unfold match_len. now rewrite Hm.
  - change (match_len (ESC :: "["%char :: (params ++ inters ++ [final]) ++ s) =
            Some (S (S (length (params ++ inters ++ [final]))))).
    rewrite Hs, Hl. unfold match_len. now rewrite Hm.
Qed.

Lemma sub_ansi_match (m s : str) :
  match_len (m ++ s) = Some (length m) -> sub_ansi 0 (m ++ s) = sub_ansi 0 s.
Proof.
  destruct m as [|c m]; intros H.
  - simpl in H. destruct s as [|c s]; [reflexivity|].
    (* a match is never empty *)
    exfalso. unfold match_len in H.
    destruct (Ascii.eqb c CSI); [destruct (param_rest s); discriminate|].
    destruct (Ascii.eqb c ESC); [|discriminate].
    destruct s as [|d s]; [discriminate|].
    destruct (Ascii.eqb d "["%char); [destruct (param_rest s); discriminate|discriminate].
  - change (sub_ansi 0 ((c :: m) ++ s))
      with (match match_len ((c :: m) ++ s) with
            | Some (S k) => sub_ansi k (m ++ s)
            | _ => c :: sub_ansi 0 (m ++ s)
            end).
    rewrite H. change (sub_ansi (length m) (m ++ s) = sub_ansi 0 s).
    now rewrite sub_ansi_skipn, skipn_app, skipn_all, Nat.sub_diag.
Qed.

Lemma sub_ansi_plain (t s : str) :
  forallb is_plain t = true -> sub_ansi 0 (t ++ s) = t ++ sub_ansi 0 s.
Proof.
  intros H. induction t as [|c t IH]; [reflexivity|].
  simpl in H. apply andb_prop in H as [Hc Ht].
  unfold is_plain in Hc. apply andb_prop in Hc as [Hc _].
  apply andb_prop in Hc as [Hc _]. apply andb_prop in Hc as [He Hcsi].
  apply negb_true_iff in He, Hcsi.
  change (sub_ansi 0 ((c :: t) ++ s))
    with (match match_len (c :: t ++ s) with
          | Some (S k) => sub_ansi k (t ++ s)
          | _ => c :: sub_ansi 0 (t ++ s)
          end).
  unfold match_len. rewrite Hcsi, He, (IH Ht). reflexivity.
Qed.

Lemma remove_char_plain c (t : str) :
  forallb (fun x => negb (Ascii.eqb x c)) t = true -> remove_char c t = t.
Proof.
  intros H. unfold remove_char. induction t as [|x t IH]; [reflexivity|].
  simpl in *. apply andb_prop in H as [Hx Ht]. now rewrite Hx, (IH Ht).
Qed.

Lemma text_of_plain chunks :
  Forall (fun c => wellformed c = true) chunks ->
  forallb is_plain (concat (map text_of chunks)) = true.
Proof.
  induction 1 as [|c chunks Hc _ IH]; [reflexivity|].
  simpl. rewrite forallb_app, IH, andb_true_r.
  destruct c; [exact Hc|reflexivity].
Qed.

(** A line made of plain text (no ESC, CSI, backspace or carriage return)
    and of well-formed control sequences, in any order and number, is
    cleaned to its plain text exactly: every sequence is removed whole and
    no character of the text is lost. *)
Theorem clean_line_wellformed chunks :
  Forall (fun c => wellformed c = true) chunks ->
  clean_line (concat (map render chunks)) = concat (map text_of chunks).
Proof.
  intros H.
  assert (Hsub : sub_ansi 0 (concat (map render chunks)) = concat (map text_of chunks)).
  { induction H as [|c chunks Hc _ IH]; [reflexivity|].
    simpl concat. destruct c as [t|b p i f].
    - simpl render. simpl text_of. now rewrite (sub_ansi_plain _ _ Hc), IH.
    - rewrite (sub_ansi_match _ _ (match_len_control b p i f _ Hc)). exact IH. }
  pose proof (text_of_plain chunks H) as Hp.
  unfold clean_line. rewrite Hsub.
  assert (Hbs : forallb (fun x => negb (Ascii.eqb x BS)) (concat (map text_of chunks)) = true).
  { rewrite forallb_forall in *. intros x Hx. specialize (Hp x Hx).
    unfold is_plain in Hp. apply andb_prop in Hp as [Hp _].
    now apply andb_prop in Hp as [_ Hp]. }
  assert (Hcr : forallb (fun x => negb (Ascii.eqb x CR)) (concat (map text_of chunks)) = true).
  { rewrite forallb_forall in *. intros x Hx. specialize (Hp x Hx).
    unfold is_plain in Hp. now apply andb_prop in Hp as [_ Hp]. }
  now rewrite (remove_char_plain _ _ Hbs), (remove_char_plain _ _ Hcr).
Qed.

Lemma clean_line_wellformed_witness :
  clean_line (concat (map render
    [Control false (lit "1;31") [] "m"%char; Text (lit "red");
     Control true (lit "0") (lit " ") "q"%char; Text (lit " ok" ++ [LF])])) =
  concat (map text_of
    [Control false (lit "1;31") [] "m"%char; Text (lit "red");
     Control true (lit "0") (lit " ") "q"%char; Text (lit " ok" ++ [LF])]).
Proof.
  apply (clean_line_wellformed
    [Control false (lit "1;31") [] "m"%char; Text (lit "red");
     Control true (lit "0") (lit " ") "q"%char; Text (lit " ok" ++ [LF])]).
  repeat constructor.
Defined.

(** ** The command strings of ciaa_config *)

Lemma uint_string_hex d :
  Forall (fun c => is_hex_digit c = true)
         (list_ascii_of_string (HexadecimalString.NilEmpty.string_of_uint d)).
Proof. induction d; simpl; constructor; trivial. Qed.

Lemma to_hex_uint_nonnil n : N.to_hex_uint n <> Hexadecimal.Nil.
Proof.
  destruct n as [|p]; [discriminate|]. apply HexadecimalPos.Unsigned.to_uint_nonnil.
Qed.

Lemma hex_digits n : Forall (fun c => is_hex_digit c = true) (Config.hex n).
Proof.
  unfold Config.hex. pose proof (to_hex_uint_nonnil n) as Hn.
  destruct (N.to_hex_uint n) eqn:E; try (exfalso; now apply Hn);
    match goal with
    | |- context [HexadecimalString.NilZero.string_of_uint ?d] => exact (uint_string_hex d)
    end.
Qed.

Lemma hex_nonempty n : Config.hex n <> [].
Proof.
  unfold Config.hex. pose proof (to_hex_uint_nonnil n) as Hn.
  destruct (N.to_hex_uint n); try (exfalso; now apply Hn); discriminate.
Qed.

Lemma hex_inj n n' : Config.hex n = Config.hex n' -> n = n'.
Proof.
  unfold Config.hex. intros H.
  apply (f_equal string_of_list_ascii) in H.
  rewrite !string_of_list_ascii_of_string in H.
  apply (f_equal HexadecimalString.NilZero.uint_of_string) in H.
  rewrite !HexadecimalString.NilZero.usu in H by apply to_hex_uint_nonnil.
  injection H as H. now apply HexadecimalN.Unsigned.to_uint_inj.
Qed.

(** The characters of [format_x]: hexadecimal digits after an optional
    minus sign, and at least one digit. *)
Lemma format_x_shape n :
  exists sign digits,
    Config.format_x n = sign ++ digits /\
    (sign = [] \/ sign = ["-"%char]) /\
    digits <> [] /\ Forall (fun c => is_hex_digit c = true) digits.
Proof.
  destruct n as [|p|p]; simpl.
  - exists [], (Config.hex 0). repeat split; auto using hex_nonempty, hex_digits.
  - exists [], (Config.hex (Npos p)). repeat split; auto using hex_nonempty, hex_digits.
  - exists ["-"%char], (Config.hex (Npos p)).
    repeat split; auto using hex_nonempty, hex_digits.
Qed.

Lemma format_x_no c n :
  is_hex_digit c = false -> c <> "-"%char -> ~ In c (Config.format_x n).
Proof.
  intros Hc Hm Hin.
  destruct (format_x_shape n) as (sign & digits & Hf & Hs & _ & Hd).
  rewrite Hf in Hin. apply in_app_or in Hin as [Hin|Hin].
  - destruct Hs as [->| ->]; [destruct Hin|].
    destruct Hin as [<-|[]]. now apply Hm.
  - rewrite Forall_forall in Hd. specialize (Hd c Hin). congruence.
Qed.

Lemma format_x_inj n n' : Config.format_x n = Config.format_x n' -> n = n'.
Proof.
  assert (Hneg : forall m, ~ exists t, Config.hex m = "-"%char :: t).
  { intros m [t Ht]. pose proof (hex_digits m) as Hd. rewrite Ht in Hd.
    inversion Hd as [|? ? Hc _]. discriminate. }
  destruct n as [|p|p], n' as [|q|q]; simpl; intros H;
    try reflexivity;
    try (apply hex_inj in H; congruence);
    try (exfalso; eapply Hneg; eexists; exact H);
    try (exfalso; eapply Hneg; eexists; symmetry; exact H).
  injection H as H. apply hex_inj in H. congruence.
Qed.

Lemma split_at_separator (sep : ascii) (x y x' y' : str) :
  ~ In sep x -> ~ In sep x' ->
  x ++ sep :: y = x' ++ sep :: y' -> x = x' /\ y = y'.
Proof.
  revert x'. induction x as [|a x IH]; intros x' Hx Hx' H.
  - destruct x' as [|a' x']; simpl in H.
    + injection H as ->. auto.
    + injection H as <- _. exfalso. apply Hx'. now left.
  - destruct x' as [|a' x']; simpl in H.
    + injection H as -> _. exfalso. apply Hx. now left.
    + injection H as <- H.
      destruct (IH x') as [-> ->]; auto.
      * intros Hin. apply Hx. now right.
      * intros Hin. apply Hx'. now right.
Qed.

Lemma axi_write_fields reg_addr data reg_addr' data' :
  Config.axi_write_cmd reg_addr data = Config.axi_write_cmd reg_addr' data' ->
  reg_addr = reg_addr' /\ data = data'.
Proof.
  unfold Config.axi_write_cmd. intros H.
  apply app_inv_head in H. apply app_inv_head in H.
  change (lit " " ++ Config.format_x data ++ [LF])
    with (" "%char :: Config.format_x data ++ [LF]) in H.
  change (lit " " ++ Config.format_x data' ++ [LF])
    with (" "%char :: Config.format_x data' ++ [LF]) in H.
  apply split_at_separator in H as [Ha Hd];
    try (apply format_x_no; [reflexivity|discriminate]).
  apply app_inv_tail in Hd.
  split; now apply format_x_inj.
Qed.

(** Distinct register addresses or distinct values give distinct command
    strings: the command determines both numbers, negative ones included. *)
Theorem axi_write_cmd_inj reg_addr data reg_addr' data' :
  Config.axi_write_cmd reg_addr data = Config.axi_write_cmd reg_addr' data' ->
  reg_addr = reg_addr' /\ data = data'.
Proof. apply axi_write_fields. Qed.

Lemma axi_write_cmd_inj_witness :
  (0x43C00010 = 0x43C00000 + 0x010 /\ 1 = 1)%Z.
Proof.
  apply (axi_write_cmd_inj 0x43C00010 1 (0x43C00000 + 0x010) 1). reflexivity.
Defined.

Lemma rstrip_last (f : ascii -> bool) (t : str) c :
  f c = false -> rstrip f (t ++ [c]) = t ++ [c].
Proof.
  intros Hc. unfold rstrip. rewrite rev_app_distr. simpl. rewrite Hc.
  change (c :: rev t) with (rev [c] ++ rev t).
  now rewrite <- rev_app_distr, rev_involutive.
Qed.

Lemma rstrip_drop (f : ascii -> bool) (s : str) x :
  f x = true -> rstrip f (s ++ [x]) = rstrip f s.
Proof.
  intros Hx. unfold rstrip. rewrite rev_app_distr. simpl. now rewrite Hx.
Qed.

(** A string that neither begins nor ends with a newline is left as it is
    by [normalize], also when one newline is appended to it. *)
Lemma normalize_body (c : ascii) (t t' : str) d :
  c :: t = t' ++ [d] -> c <> LF -> d <> LF ->
  normalize (c :: t) = c :: t /\ normalize ((c :: t) ++ [LF]) = c :: t.
Proof.
  intros Hb Hc Hd.
  assert (Hc' : is_newline c = false) by (now apply Ascii.eqb_neq).
  assert (Hd' : is_newline d = false) by (now apply Ascii.eqb_neq).
  unfold normalize, strip, lstrip. split.
  - simpl dropwhile. rewrite Hc', Hb. now apply rstrip_last.
  - simpl dropwhile. rewrite Hc'.
    change (c :: t ++ [LF]) with ((c :: t) ++ [LF]).
    rewrite rstrip_drop by reflexivity. rewrite Hb. now apply rstrip_last.
Qed.

Lemma axi_write_cmd_body reg_addr data :
  exists t t' d,
    Config.axi_write_cmd reg_addr data = ("/"%char :: t) ++ [LF] /\
    "/"%char :: t = t' ++ [d] /\ d <> LF.
Proof.
  unfold Config.axi_write_cmd.
  destruct (format_x_shape data) as (sign & digits & Hf & _ & Hne & Hd).
  destruct (exists_last Hne) as (ds & d & Hds).
  assert (Hd' : d <> LF).
  { intros ->. rewrite Hds in Hd. apply Forall_app in Hd as [_ Hd].
    inversion Hd as [|? ? Hx _]. discriminate. }
  rewrite Hf, Hds. clear Hf Hds Hd Hne.
  pose (M := lit "mnt/currentVersions/").
  change Config.ELFS_LOCATION with ("/"%char :: M). clearbody M.
  generalize (lit "axi_rw_test.elf w ") (Config.format_x reg_addr) (lit " ").
  intros W FA SP.
  exists (M ++ W ++ FA ++ SP ++ sign ++ ds ++ [d]), ("/"%char :: M ++ W ++ FA ++ SP ++ sign ++ ds), d.
  split; [|split; [|exact Hd']].
  - rewrite <- !app_comm_cons. f_equal. now rewrite <- !app_assoc.
  - rewrite <- !app_comm_cons. f_equal. now rewrite <- !app_assoc.
Qed.

Lemma written_after_writes sk cmd :
  written (after_writes sk cmd) =
  written sk ++ [normalize cmd ++ [LF]; echo_cmd ++ [LF]].
Proof.
  unfold after_writes, flushed, wrote. cbn [written]. now rewrite <- app_assoc.
Qed.

Lemma execute_sink self cmd sk :
  stdin self = Some sk ->
  stdin (snd (execute self cmd)) = Some (after_writes sk cmd).
Proof.
  intros Hin. rewrite (execute_working _ _ _ Hin). unfold receive.
  destruct (stdout self) as [src|]; [|reflexivity].
  destruct (read_loop (normalize cmd) src []) as [[l|e] rest]; reflexivity.
Qed.

Lemma normalize_axi_write_cmd reg_addr data :
  normalize (Config.axi_write_cmd reg_addr data) ++ [LF] =
  Config.axi_write_cmd reg_addr data.
Proof.
  destruct (axi_write_cmd_body reg_addr data) as (t & t' & d & Hcmd & Hb & Hd).
  rewrite Hcmd.
  destruct (normalize_body "/"%char t t' d Hb) as [_ E]; [discriminate|exact Hd|].
  now rewrite E.
Qed.

(** The newline that the command builder appends is the one that execute
    trims and writes back: for every register write, what reaches the
    sink is the builder's string itself, followed by the sentinel command. *)
Theorem execute_sends_axi_write self sk reg_addr data :
  stdin self = Some sk ->
  exists sk',
    stdin (snd (execute self (Config.axi_write_cmd reg_addr data))) = Some sk' /\
    written sk' =
    written sk ++ [Config.axi_write_cmd reg_addr data; echo_cmd ++ [LF]].
Proof.
  intros Hin.
  exists (after_writes sk (Config.axi_write_cmd reg_addr data)).
  split; [now apply execute_sink|].
  now rewrite written_after_writes, normalize_axi_write_cmd.
Qed.

Lemma execute_sends_axi_write_witness :
  exists sk',
    stdin (snd (execute (session []) (Config.axi_write_cmd 0x43C00010 1))) = Some sk' /\
    written sk' =
    written {| written := []; flushes := 0 |}
      ++ [Config.axi_write_cmd 0x43C00010 1; echo_cmd ++ [LF]].
Proof.
  exact (execute_sends_axi_write (session []) {| written := []; flushes := 0 |}
           0x43C00010 1 eq_refl).
Defined.

(** The beam selector keeps the three low bits of its argument: the value
    written is the argument modulo 8, a single digit 0-7, so selector 8
    is selector 0 again and a negative number wraps round as well. *)
Theorem beam_selector_wraps beam_number :
  (0 <= beam_number mod 8 < 8)%Z /\
  Config.set_beam_selector_cmd beam_number =
  Config.ELFS_LOCATION ++ lit "axi_rw_test.elf w 43c30038 "
    ++ [ascii_of_nat (48 + Z.to_nat (beam_number mod 8))] ++ [LF] /\
  Config.set_beam_selector_cmd (beam_number + 8) =
  Config.set_beam_selector_cmd beam_number.
Proof.
  assert (Hland : forall b, Z.land b 7 = (b mod 8)%Z).
  { intros b. change 7%Z with (Z.ones 3). now rewrite Z.land_ones by lia. }
  assert (Hr : (0 <= beam_number mod 8 < 8)%Z) by (apply Z.mod_pos_bound; lia).
  split; [exact Hr|]. split.
  - unfold Config.set_beam_selector_cmd. rewrite Hland.
    remember (beam_number mod 8)%Z as v eqn:Ev. clear Ev.
    assert (Hv : (v = 0 \/ v = 1 \/ v = 2 \/ v = 3 \/ v = 4 \/ v = 5 \/ v = 6 \/ v = 7)%Z)
      by lia.
    destruct Hv as [->|[->|[->|[->|[->|[->|[->| ->]]]]]]]; reflexivity.
  - unfold Config.set_beam_selector_cmd. rewrite !Hland.
    replace (beam_number + 8)%Z with (beam_number + 1 * 8)%Z by lia.
    now rewrite Z.mod_add by lia.
Qed.

(** Channel numbers 0 to 4 address five registers of their own: the
    command for one of them never coincides with a write to the FIFO input
    mux, the data source mux, the local oscillator or the beam selector,
    and two channel commands coincide only for the same channel and value. *)
Theorem channel_register_separation channel_number freq_conf :
  (0 <= channel_number <= 4)%Z ->
  (forall v, Config.channel_mixer_freq_write channel_number freq_conf
             <> Config.set_fifo_input_cmd v) /\
  (forall v, Config.channel_mixer_freq_write channel_number freq_conf
             <> Config.set_data_source_cmd v) /\
  (forall v, Config.channel_mixer_freq_write channel_number freq_conf
             <> Config.local_osc_freq_write v) /\
  (forall v, Config.channel_mixer_freq_write channel_number freq_conf
             <> Config.set_beam_selector_cmd v) /\
  (forall m f, Config.channel_mixer_freq_write channel_number freq_conf
               = Config.channel_mixer_freq_write m f ->
               channel_number = m /\ freq_conf = f).
Proof.
  intros Hn.
  unfold Config.channel_mixer_freq_write, Config.set_fifo_input_cmd,
    Config.set_data_source_cmd, Config.local_osc_freq_write,
    Config.set_beam_selector_cmd.
  repeat split; try (intros v H; apply axi_write_fields in H as [Ha _];
                     unfold Config.PREPROC_BASE_ADDR, Config.BEAM_FREQ_OFFSET,
                       Config.BEAM_FREQ_STRIDE, Config.FIFO_INPUT_MUX_OFFSET,
                       Config.DATA_SOURCE_MUX_OFFSET, Config.LOCAL_OSC_FREQ_OFFSET in Ha;
                     lia).
  - apply axi_write_fields in H as [Ha _].
    unfold Config.PREPROC_BASE_ADDR, Config.BEAM_FREQ_OFFSET, Config.BEAM_FREQ_STRIDE in Ha.
    lia.
  - now apply axi_write_fields in H as [_ Hd].
Qed.

Lemma channel_register_separation_witness :
  (forall v, Config.channel_mixer_freq_write 4 0x0BD0BD0B <> Config.set_fifo_input_cmd v) /\
  (forall v, Config.channel_mixer_freq_write 4 0x0BD0BD0B <> Config.set_data_source_cmd v) /\
  (forall v, Config.channel_mixer_freq_write 4 0x0BD0BD0B <> Config.local_osc_freq_write v) /\
  (forall v, Config.channel_mixer_freq_write 4 0x0BD0BD0B <> Config.set_beam_selector_cmd v) /\
  (forall m f, Config.channel_mixer_freq_write 4 0x0BD0BD0B
               = Config.channel_mixer_freq_write m f ->
               4%Z = m /\ 0x0BD0BD0B%Z = f).
Proof.
  apply (channel_register_separation 4 0x0BD0BD0B). lia.
Defined.

(** Nothing checks the channel number: channel 5 lands on the local
    oscillator register and channel -1 on the FIFO input mux, whatever the
    value written. *)
Theorem channel_register_overrun freq_conf :
  Config.channel_mixer_freq_write 5 freq_conf = Config.local_osc_freq_write freq_conf /\
  Config.channel_mixer_freq_write (-1) freq_conf = Config.set_fifo_input_cmd freq_conf.
Proof. split; reflexivity. Qed.

(** ** The window's handlers *)

Lemma log_output_spec w lines :
  log_output w lines =
  {| ssh := ssh w;
     ssh_console := ssh_console w ++ map (fun l => PlainText (strip isspace l)) lines;
     acquisition_enabled := acquisition_enabled w;
     streaming_active := streaming_active w |}.
Proof.
  unfold log_output. revert w. induction lines as [|l lines IH]; intros w.
  - simpl. rewrite app_nil_r. now destruct w.
  - simpl fold_left. rewrite IH. unfold log_message. cbn [ssh ssh_console
      acquisition_enabled streaming_active map]. now rewrite <- app_assoc.
Qed.

Lemma log_errors_spec w lines :
  log_errors w lines =
  {| ssh := ssh w;
     ssh_console := ssh_console w ++
       map (fun l => Html (error_span (lit "ERROR: " ++ strip isspace l))) lines;
     acquisition_enabled := acquisition_enabled w;
     streaming_active := streaming_active w |}.
Proof.
  unfold log_errors. revert w. induction lines as [|l lines IH]; intros w.
  - simpl. rewrite app_nil_r. now destruct w.
  - simpl fold_left. rewrite IH. unfold log_message. cbn [ssh ssh_console
      acquisition_enabled streaming_active map]. now rewrite <- app_assoc.
Qed.

Section WindowLemmas.

Variable exn_text : exn -> str.

Lemma write_ssh_ok w self cmd shin out err self' :
  usable w = Some self ->
  execute self cmd = (Ok [PFile shin; PList out; PList err], self') ->
  write_ssh exn_text w cmd =
  {| ssh := Some self';
     ssh_console := ssh_console w ++
       PlainText (lit "> " ++ cmd) ::
       map (fun l => PlainText (strip isspace l)) out ++
       map (fun l => Html (error_span (lit "ERROR: " ++ strip isspace l))) err;
     acquisition_enabled := acquisition_enabled w;
     streaming_active := streaming_active w |}.
Proof.
  intros Hu He. unfold write_ssh. rewrite Hu, He.
  rewrite log_errors_spec, log_output_spec. unfold log_message, with_ssh.
  cbn [ssh ssh_console acquisition_enabled streaming_active].
  now rewrite <- !app_assoc.
Qed.

Lemma write_ssh_raise w self cmd e self' :
  usable w = Some self ->
  execute self cmd = (Raise e, self') ->
  write_ssh exn_text w cmd =
  {| ssh := Some self';
     ssh_console := ssh_console w ++
       [Html (error_span (lit "ERROR SSH: " ++ exn_text e))];
     acquisition_enabled := acquisition_enabled w;
     streaming_active := streaming_active w |}.
Proof.
  intros Hu He. unfold write_ssh. now rewrite Hu, He.
Qed.

Lemma usable_session w self : usable w = Some self -> ssh w = Some self /\ isConnected self = true.
Proof.
  unfold usable. destruct (ssh w) as [s|]; [|discriminate].
  destruct (isConnected s) eqn:E; [|discriminate].
  intros H. injection H as <-. auto.
Qed.

(** After [write_ssh] on a usable session with both streams, the window
    holds the session as [execute] left it and nothing else has changed
    but the console. *)
Lemma write_ssh_session w self cmd :
  usable w = Some self ->
  ssh (write_ssh exn_text w cmd) = Some (snd (execute self cmd)) /\
  acquisition_enabled (write_ssh exn_text w cmd) = acquisition_enabled w /\
  streaming_active (write_ssh exn_text w cmd) = streaming_active w.
Proof.
  intros Hu. unfold write_ssh. rewrite Hu.
  destruct (execute self cmd) as [[ret|e] s'] eqn:He; [|now simpl].
  destruct (execute_ok_inv _ _ _ _ He) as (sk & src & l & rest & _ & _ & _ & -> & _).
  rewrite log_errors_spec, log_output_spec. now simpl.
Qed.


End WindowLemmas.

Lemma usable_intro w s :
  ssh w = Some s -> isConnected s = true -> usable w = Some s.
Proof. intros H1 H2. unfold usable. now rewrite H1, H2. Qed.

Lemma execute_at_failure self cmd sk pre e rest :
  stdin self = Some sk -> stdout self = Some (map Line pre ++ Fails e :: rest) ->
  Forall (fun l => is_sentinel (normalize cmd) l = false) pre ->
  execute self cmd =
  (Raise e, {| isConnected := isConnected self;
               stdin := Some (after_writes sk cmd);
               stdout := Some rest |}).
Proof.
  intros Hin Hout Hpre. rewrite (execute_working _ _ _ Hin). unfold receive.
  now rewrite Hout, (read_loop_prefix _ _ _ _ Hpre).
Qed.

(** A window never shows the AttributeError of a session without streams:
    a session that its constructor returned is either refused by the guard
    of [write_ssh], which logs the no-connection message and touches
    nothing, or it has both streams and the command is written to it. *)
Theorem window_guards_constructor exn_text env w cmd :
  snd (init env) = None -> ssh w = Some (fst (init env)) ->
  (connect_ok env || auth_none_ok env = false /\
   write_ssh exn_text w cmd = log_message w no_connection false) \/
  (exists channel,
     invoke_shell env = Ok channel /\
     window_sink (write_ssh exn_text w cmd) =
     Some (after_writes {| written := []; flushes := 0 |} cmd)).
Proof.
  unfold init.
  destruct (connect_ok env || auth_none_ok env);
    [destruct (invoke_shell env) as [channel|e]|]; simpl; intros Hr Hs;
    try discriminate.
  - right. exists channel. split; [reflexivity|].
    pose proof (usable_intro w _ Hs eq_refl) as Hu.
    destruct (write_ssh_session exn_text w _ cmd Hu) as [Hw _].
    unfold window_sink. rewrite Hw. now apply execute_sink.
  - left. split; [reflexivity|]. unfold write_ssh, usable. now rewrite Hs.
Qed.

Lemma window_guards_constructor_witness :
  (connect_ok unreachable_host || auth_none_ok unreachable_host = false /\
   write_ssh (fun _ => []) {| ssh := Some (fst (init unreachable_host)); ssh_console := [];
                              acquisition_enabled := false; streaming_active := false |}
             (lit "ls")
   = log_message {| ssh := Some (fst (init unreachable_host)); ssh_console := [];
                    acquisition_enabled := false; streaming_active := false |}
                 no_connection false) \/
  (exists channel,
     invoke_shell unreachable_host = Ok channel /\
     window_sink (write_ssh (fun _ => [])
                    {| ssh := Some (fst (init unreachable_host)); ssh_console := [];
                       acquisition_enabled := false; streaming_active := false |}
                    (lit "ls")) =
     Some (after_writes {| written := []; flushes := 0 |} (lit "ls"))).
Proof.
  apply (window_guards_constructor (fun _ => []) unreachable_host
           {| ssh := Some (fst (init unreachable_host)); ssh_console := [];
              acquisition_enabled := false; streaming_active := false |} (lit "ls"));
    reflexivity.
Defined.

(** What [write_ssh] puts on the console when the command completes: the
    command as it was given, then the returned lines with the blanks at
    both ends stripped; all of them as plain text if the exit status is 0,
    all of them as error markup behind [ERROR: ] otherwise. *)
Theorem write_ssh_console exn_text w self cmd sk src pre line rest tok status :
  usable w = Some self -> stdin self = Some sk -> stdout self = Some src ->
  reaches_sentinel (normalize cmd) src pre line rest ->
  nth_error (rsplit1 line) 1 = Some tok -> py_int tok = Some status ->
  ssh_console (write_ssh exn_text w cmd) =
  ssh_console w ++
  PlainText (lit "> " ++ cmd) ::
  map (fun l => if (status =? 0)%Z
                then PlainText (strip isspace l)
                else Html (error_span (lit "ERROR: " ++ strip isspace l)))
      (trim (normalize cmd) (accumulate (normalize cmd) pre [])).
Proof.
  intros Hu Hin Hout Hr Ht Hp.
  pose proof (execute_at_sentinel _ _ _ _ _ _ _ _ _ Hin Hout Hr Ht Hp) as He.
  rewrite (write_ssh_ok exn_text _ _ _ _ _ _ _ Hu He). cbn [ssh_console].
  destruct (status =? 0)%Z; simpl map; now rewrite ?app_nil_r.
Qed.

Lemma write_ssh_console_witness :
  ssh_console (write_ssh (fun _ => [])
                 {| ssh := Some (session [Line (lit " a.txt " ++ [CR; LF]);
                                          Line (sentinel_line "0")]);
                    ssh_console := []; acquisition_enabled := false;
                    streaming_active := false |} (lit "ls")) =
  [] ++
  PlainText (lit "> " ++ lit "ls") ::
  map (fun l => if (0 =? 0)%Z
                then PlainText (strip isspace l)
                else Html (error_span (lit "ERROR: " ++ strip isspace l)))
      (trim (normalize (lit "ls"))
         (accumulate (normalize (lit "ls")) [lit " a.txt " ++ [CR; LF]] [])).
Proof.
  apply (write_ssh_console (fun _ => [])
           {| ssh := Some (session [Line (lit " a.txt " ++ [CR; LF]);
                                    Line (sentinel_line "0")]);
              ssh_console := []; acquisition_enabled := false;
              streaming_active := false |}
           (session [Line (lit " a.txt " ++ [CR; LF]); Line (sentinel_line "0")])
           (lit "ls") {| written := []; flushes := 0 |}
           [Line (lit " a.txt " ++ [CR; LF]); Line (sentinel_line "0")]
           [lit " a.txt " ++ [CR; LF]] (sentinel_line "0") [] (lit "0") 0%Z).
  - reflexivity.
  - reflexivity.
  - reflexivity.
  - split; [reflexivity|]. split; [|reflexivity]. repeat constructor.
  - reflexivity.
  - reflexivity.
Defined.

(** When a read fails before the sentinel line, [write_ssh] shows one
    error entry with the text of the exception and nothing else: neither
    the command nor the output read so far, although the command was
    written to the sink. *)
Theorem write_ssh_read_failure exn_text w self cmd sk pre e rest :
  usable w = Some self -> stdin self = Some sk ->
  stdout self = Some (map Line pre ++ Fails e :: rest) ->
  Forall (fun l => is_sentinel (normalize cmd) l = false) pre ->
  ssh_console (write_ssh exn_text w cmd) =
  ssh_console w ++ [Html (error_span (lit "ERROR SSH: " ++ exn_text e))] /\
  window_sink (write_ssh exn_text w cmd) = Some (after_writes sk cmd).
Proof.
  intros Hu Hin Hout Hpre.
  pose proof (execute_at_failure _ _ _ _ _ _ Hin Hout Hpre) as He.
  now rewrite (write_ssh_raise exn_text _ _ _ _ _ Hu He).
Qed.

Lemma write_ssh_read_failure_witness :
  ssh_console (write_ssh (fun _ => lit "timed out")
                 {| ssh := Some (session (map Line [lit "partial" ++ [LF]]
                                            ++ Fails (Exn "timeout") :: []));
                    ssh_console := []; acquisition_enabled := false;
                    streaming_active := false |} (lit "ls")) =
  [] ++ [Html (error_span (lit "ERROR SSH: " ++ lit "timed out"))] /\
  window_sink (write_ssh (fun _ => lit "timed out")
                 {| ssh := Some (session (map Line [lit "partial" ++ [LF]]
                                            ++ Fails (Exn "timeout") :: []));
                    ssh_console := []; acquisition_enabled := false;
                    streaming_active := false |} (lit "ls")) =
  Some (after_writes {| written := []; flushes := 0 |} (lit "ls")).
Proof.
  apply (write_ssh_read_failure (fun _ => lit "timed out")
           {| ssh := Some (session (map Line [lit "partial" ++ [LF]]
                                      ++ Fails (Exn "timeout") :: []));
              ssh_console := []; acquisition_enabled := false;
              streaming_active := false |}
           (session (map Line [lit "partial" ++ [LF]] ++ Fails (Exn "timeout") :: []))
           (lit "ls") {| written := []; flushes := 0 |}
           [lit "partial" ++ [LF]] (Exn "timeout") []).
  - reflexivity.
  - reflexivity.
  - reflexivity.
  - repeat constructor.
Defined.


(** When the board answers each of the two commands with a sentinel line,
    whatever exit status the lines carry, [reset_system] has written to the
    sink, in this order, the asynchronous reset (value 10 to register
    0x43C00004), the sentinel command, the FIFO reset (value 1 to register
    0x43C00008) and the sentinel command again, and has read up to the
    second sentinel line: a failed first reset does not hold back the
    second. *)
Theorem reset_system_writes exn_text w self sk src
    pre1 line1 rest1 tok1 status1 pre2 line2 rest2 tok2 status2 :
  usable w = Some self -> stdin self = Some sk -> stdout self = Some src ->
  reaches_sentinel (normalize Config.reset_async_cmd) src pre1 line1 rest1 ->
  nth_error (rsplit1 line1) 1 = Some tok1 -> py_int tok1 = Some status1 ->
  reaches_sentinel (normalize Config.reset_fifo_cmd) rest1 pre2 line2 rest2 ->
  nth_error (rsplit1 line2) 1 = Some tok2 -> py_int tok2 = Some status2 ->
  exists sk' s',
    ssh (reset_system exn_text w) = Some s' /\
    stdin s' = Some sk' /\ stdout s' = Some rest2 /\
    written sk' =
    written sk ++
    [lit "/mnt/currentVersions/axi_rw_test.elf w 43c00004 a" ++ [LF]; echo_cmd ++ [LF];
     lit "/mnt/currentVersions/axi_rw_test.elf w 43c00008 1" ++ [LF]; echo_cmd ++ [LF]].
Proof.
  intros Hu Hin Hout H1 Ht1 Hp1 H2 Ht2 Hp2. unfold reset_system.
  destruct (usable_session w self Hu) as [_ Hc].
  destruct (write_ssh_session exn_text w self Config.reset_async_cmd Hu) as (Hs1 & _).
  rewrite (execute_at_sentinel _ _ _ _ _ _ _ _ _ Hin Hout H1 Ht1 Hp1) in Hs1.
  simpl snd in Hs1.
  pose proof (usable_intro _ _ Hs1 Hc) as Hu1.
  destruct (write_ssh_session exn_text _ _ Config.reset_fifo_cmd Hu1) as (Hs2 & _).
  rewrite (execute_at_sentinel
             {| isConnected := isConnected self;
                stdin := Some (after_writes sk Config.reset_async_cmd);
                stdout := Some rest1 |}
             Config.reset_fifo_cmd
             (after_writes sk Config.reset_async_cmd) rest1 pre2 line2 rest2 tok2 status2
             eq_refl eq_refl H2 Ht2 Hp2) in Hs2.
  simpl snd in Hs2.
  exists (after_writes (after_writes sk Config.reset_async_cmd) Config.reset_fifo_cmd).
  eexists. split; [|split; [|split]].
  - unfold log_message. cbn [ssh]. exact Hs2.
  - reflexivity.
  - reflexivity.
  - rewrite !written_after_writes.
    unfold Config.reset_async_cmd, Config.reset_fifo_cmd.
    rewrite !normalize_axi_write_cmd, <- app_assoc. reflexivity.
Qed.

Lemma reset_system_writes_witness :
  exists sk' s',
    ssh (reset_system (fun _ => [])
           {| ssh := Some (session [Line (sentinel_line "1"); Line (sentinel_line "0")]);
              ssh_console := []; acquisition_enabled := false;
              streaming_active := false |}) = Some s' /\
    stdin s' = Some sk' /\ stdout s' = Some [] /\
    written sk' =
    written {| written := []; flushes := 0 |} ++
    [lit "/mnt/currentVersions/axi_rw_test.elf w 43c00004 a" ++ [LF]; echo_cmd ++ [LF];
     lit "/mnt/currentVersions/axi_rw_test.elf w 43c00008 1" ++ [LF]; echo_cmd ++ [LF]].
Proof.
  apply (reset_system_writes (fun _ => [])
           {| ssh := Some (session [Line (sentinel_line "1"); Line (sentinel_line "0")]);
              ssh_console := []; acquisition_enabled := false;
              streaming_active := false |}
           (session [Line (sentinel_line "1"); Line (sentinel_line "0")])
           {| written := []; flushes := 0 |}
           [Line (sentinel_line "1"); Line (sentinel_line "0")]
           [] (sentinel_line "1") [Line (sentinel_line "0")] (lit "1") 1%Z
           [] (sentinel_line "0") [] (lit "0") 0%Z).
  - reflexivity.
  - reflexivity.
  - reflexivity.
  - split; [reflexivity|]. split; [constructor|reflexivity].
  - reflexivity.
  - reflexivity.
  - split; [reflexivity|]. split; [constructor|reflexivity].
  - reflexivity.
  - reflexivity.
Defined.




Lemma dropwhile_all (f : ascii -> bool) (s : str) :
  forallb f s = true -> dropwhile f s = [].
Proof.
  induction s as [|c s IH]; [reflexivity|]. simpl. intros H.
  apply andb_prop in H as [Hc Hs]. rewrite Hc. now apply IH.
Qed.

Lemma dropwhile_some (f : ascii -> bool) (s : str) :
  forallb f s = false -> exists c t, dropwhile f s = c :: t /\ f c = false.
Proof.
  induction s as [|c s IH]; [discriminate|]. simpl. intros H.
  destruct (f c) eqn:Hc; [now apply IH|]. now exists c, s.
Qed.

(** What [strip] leaves of a string that is not all blank: a non-empty
    string whose first and last characters are not blank. *)
Lemma strip_ends (f : ascii -> bool) (s : str) :
  forallb f s = false ->
  exists c t t' d,
    strip f s = c :: t /\ c :: t = t' ++ [d] /\ f c = false /\ f d = false.
Proof.
  intros H. unfold strip, lstrip, rstrip.
  destruct (dropwhile_some f s H) as (c & m & Hm & Hc). rewrite Hm.
  destruct (dropwhile_suffix f (rev m) c [] Hc) as [w Hw].
  change (rev (c :: m)) with (rev m ++ [c]).
  destruct (dropwhile f (rev m ++ [c])) as [|d r] eqn:Ed.
  - destruct w; discriminate.
  - pose proof (dropwhile_head f _ _ _ Ed) as Hd.
    assert (E : rev (d :: r) = c :: rev w).
    { rewrite Hw, rev_app_distr. reflexivity. }
    exists c, (rev w), (rev r), d. repeat split; trivial.
    now rewrite <- E.
Qed.

(** The manual command line: a text that is blank throughout sends nothing
    and stays in the field; any other text is sent with the blanks at its
    two ends stripped, which execute then leaves as it is, and the field
    is cleared. *)
Theorem textClickHandler_sends_stripped exn_text w self text :
  usable w = Some self ->
  (forallb isspace text = true ->
   textClickHandler exn_text w text = (w, text)) /\
  (forallb isspace text = false ->
   textClickHandler exn_text w text = (write_ssh exn_text w (strip isspace text), []) /\
   strip isspace text <> [] /\
   normalize (strip isspace text) = strip isspace text).
Proof.
  intros Hu. unfold textClickHandler. rewrite Hu. split; intros H.
  - unfold strip, lstrip, rstrip. now rewrite (dropwhile_all _ _ H).
  - destruct (strip_ends isspace text H) as (c & t & t' & d & Hs & Hb & Hc & Hd).
    rewrite Hs. split; [reflexivity|]. split; [discriminate|].
    apply (normalize_body c t t' d Hb).
    + intros ->. discriminate.
    + intros ->. discriminate.
Qed.

Lemma textClickHandler_sends_stripped_witness :
  (forallb isspace (lit "  ls -l " ++ [LF]) = true ->
   textClickHandler (fun _ => [])
     {| ssh := Some (session []); ssh_console := [];
        acquisition_enabled := false; streaming_active := false |}
     (lit "  ls -l " ++ [LF]) =
   ({| ssh := Some (session []); ssh_console := [];
       acquisition_enabled := false; streaming_active := false |},
    lit "  ls -l " ++ [LF])) /\
  (forallb isspace (lit "  ls -l " ++ [LF]) = false ->
   textClickHandler (fun _ => [])
     {| ssh := Some (session []); ssh_console := [];
        acquisition_enabled := false; streaming_active := false |}
     (lit "  ls -l " ++ [LF]) =
   (write_ssh (fun _ => [])
      {| ssh := Some (session []); ssh_console := [];
         acquisition_enabled := false; streaming_active := false |}
      (strip isspace (lit "  ls -l " ++ [LF])), []) /\
   strip isspace (lit "  ls -l " ++ [LF]) <> [] /\
   normalize (strip isspace (lit "  ls -l " ++ [LF])) = strip isspace (lit "  ls -l " ++ [LF])).
Proof.
  exact (textClickHandler_sends_stripped (fun _ => [])
           {| ssh := Some (session []); ssh_console := [];
              acquisition_enabled := false; streaming_active := false |}
           (session []) (lit "  ls -l " ++ [LF]) eq_refl).
Defined.

(** A read command names its register unambiguously and is never taken
    for a write command, whatever the numbers. *)
Theorem axi_read_cmd_distinct reg_addr :
  (forall reg_addr', Config.axi_read_cmd reg_addr = Config.axi_read_cmd reg_addr' ->
                     reg_addr = reg_addr') /\
  (forall reg_addr' data, Config.axi_read_cmd reg_addr <> Config.axi_write_cmd reg_addr' data).
Proof.
  unfold Config.axi_read_cmd, Config.axi_write_cmd. split.
  - intros reg_addr' H. apply app_inv_head in H. apply app_inv_head in H.
    apply app_inv_tail in H. now apply format_x_inj.
  - intros reg_addr' data H. apply app_inv_head in H.
    generalize dependent (Config.format_x reg_addr).
    intros x H. discriminate.
Qed.

Lemma axi_read_cmd_distinct_witness :
  (forall reg_addr', Config.axi_read_cmd 0x43C00180 = Config.axi_read_cmd reg_addr' ->
                     0x43C00180%Z = reg_addr') /\
  (forall reg_addr' data,
     Config.axi_read_cmd 0x43C00180 <> Config.axi_write_cmd reg_addr' data).
Proof.
  exact (axi_read_cmd_distinct 0x43C00180).
Defined.
